(** * acebase-ring: the replica coordinator of [src/server.ts]

    A shallow embedding of the coordinator script: the start-up checks, the
    connection registry ([connectTo] and the handlers it installs), the
    reconciler tick ([checkRemoved]), the router ([replicaFor]), the
    populator ([populateRing]) and the sampler ([testRing]).

    The script runs on a single-threaded event loop.  Every handler body is
    executed to completion before any other handler starts, so a handler is
    modelled as a function on the program state, and an execution of the
    program as a sequence of such handler runs ([Event], [step], [run]). *)

From stdpp Require Import base gmap sets list strings.
From Stdlib Require Import ZArith QArith Lia.

Close Scope Q_scope.

Local Open Scope string_scope.
Local Open Scope list_scope.
Local Open Scope nat_scope.

(** ** Values shared by all components *)

(** [type ConfigEntry = { host, port, https }]; the entries of
    [servers.toml] are taken to carry these three fields and no others. *)
Record ConfigEntry := { host : string; port : Z; https : bool }.

(** A JavaScript value as far as the script inspects one. *)
Inductive JsVal :=
| JUndefined
| JString (s : string)
| JNumber (z : Z)
| JBool (b : bool)
| JOther.   (* an object the script only passes along *)

(** An object literal: its own properties, in insertion order. *)
Definition JsObject := list (string * JsVal).

(** [config.server] of [conf/servers.toml]: node name to connection
    parameters, in file order (the order [Object.keys] reports). *)
Definition ServerTable := list (string * ConfigEntry).

(** [config.server[key]]; [None] is [undefined]. *)
Fixpoint server_lookup (key : string) (t : ServerTable) : option ConfigEntry :=
  match t with
  | [] => None
  | (k, e) :: t' => if String.eqb k key then Some e else server_lookup key t'
  end.

(** [Object.keys(config.server)] *)
Definition Object_keys (t : ServerTable) : list string := map fst t.

(** [{ ...conf }]: spreading [undefined] contributes no property. *)
Definition spread (conf : option ConfigEntry) : JsObject :=
  match conf with
  | None => []
  | Some e => [("host", JString (host e)); ("port", JNumber (port e));
               ("https", JBool (https e))]
  end.

(** ** Start-up (server.ts lines 10-48) *)

Module Startup.

(** What the script reads before it does anything else. *)
Record Launch := {
  env_DB_ADMIN_PASSWORD : option string;  (* process.env.DB_ADMIN_PASSWORD *)
  argv_name : option string;              (* argv.name *)
  config_server : ServerTable;            (* config.server *)
}.

Inductive Outcome :=
| Exit (code : Z) (stderr : string)
    (* process.exit(code) after console.error(stderr) *)
| Proceed (serverName : string) (adminPassword : option string)
          (serverConfig : JsObject).
    (* control reaches line 50: server, client, ring and timers are set up *)

(** [adminPassword === 'undefined']: strict equality with the string
    literal.  The value [undefined] is not a string. *)
Definition is_string_undefined (adminPassword : option string) : bool :=
  match adminPassword with
  | Some s => String.eqb s "undefined"
  | None => false
  end.

(** [{ logLevel: 'warn', ...config.server[serverName] }]; an object literal
    is an object whatever is spread into it.  [None] would be [undefined]. *)
Definition make_serverConfig (t : ServerTable) (serverName : string)
  : option JsObject :=
  Some (("logLevel", JString "warn") :: spread (server_lookup serverName t)).

Definition startup (l : Launch) : Outcome :=
  let adminPassword := env_DB_ADMIN_PASSWORD l in
  if is_string_undefined adminPassword then
    Exit 1%Z "missing DB_ADMIN_PASSWORD environment variable"
  else
    match argv_name l with
    | None => Exit 1%Z "missing --name argument"
    | Some serverName =>
        match make_serverConfig (config_server l) serverName with
        | None => Exit 1%Z ("server " +:+ serverName +:+ " not found in servers.toml")
        | Some serverConfig => Proceed serverName adminPassword serverConfig
        end
    end.

Definition exits_nonzero (o : Outcome) : Prop :=
  match o with
  | Exit code _ => code ≠ 0%Z
  | Proceed _ _ _ => False
  end.

(** The three configuration errors of the specification. *)
Definition config_error (l : Launch) : Prop :=
  argv_name l = None
  ∨ (∃ n, argv_name l = Some n ∧ server_lookup n (config_server l) = None)
  ∨ env_DB_ADMIN_PASSWORD l = None.

Definition two_nodes : ServerTable :=
  [("a", {| host := "localhost"; port := 5757; https := false |});
   ("b", {| host := "localhost"; port := 5758; https := false |})].

(** Node "a" is configured, but the credential is not in the environment. *)
Definition launch_no_password : Launch :=
  {| env_DB_ADMIN_PASSWORD := None; argv_name := Some "a";
     config_server := two_nodes |}.

(** The credential is set, but node "z" is not in [servers.toml]. *)
Definition launch_unknown_node : Launch :=
  {| env_DB_ADMIN_PASSWORD := Some "secret"; argv_name := Some "z";
     config_server := two_nodes |}.

End Startup.

(** ** The coordinator (server.ts lines 76-220) *)

Module Coordinator.

(** *** Data *)

(** An [AceBaseClient] object made by [connectTo], named by the order of
    construction.  Two references are the same object iff they are equal. *)
Definition ClientRef := nat.

(** What has happened to a client's transport: [ready()] still pending,
    [ready()] fulfilled and no 'disconnect' since, [ready()] rejected, or
    'disconnect' emitted. *)
Inductive Transport := Connecting | Live | Failed | Dropped.

Global Instance Transport_eq_dec : EqDecision Transport.
Proof. solve_decision. Defined.

(** A client object together with the [key] its handlers close over. *)
Record ClientObj := { ckey : string; transport : Transport }.

(** A database path as its segments: ["/test/g"] is [["test"; "g"]]. *)
Definition Path := list string.

Fixpoint path_string (p : Path) : string :=
  match p with
  | [] => ""
  | seg :: p' => "/" +:+ seg +:+ path_string p'
  end.

(** [{ msg, ts }], the timestamp in milliseconds. *)
Record Msg := { msg : string; ts : Z }.

(** [type Sample = { path, inner }] *)
Record Sample := { path : Path; inner : Msg }.

(** The module-level variables of the script ([ring], [connections],
    [removed], [sampledValues]), the client objects [connectTo] has made, and
    the contents of the primary store. *)
Record State := {
  ring : gset string;
  connections : gmap string ClientRef;
  removed : gset string;
  sampledValues : list Sample;
  clients : list ClientObj;
  primary : gmap Path Msg;
}.

Definition initial : State :=
  {| ring := ∅; connections := ∅; removed := ∅; sampledValues := [];
     clients := []; primary := ∅ |}.

Definition with_ring (f : gset string → gset string) (σ : State) : State :=
  {| ring := f (ring σ); connections := connections σ; removed := removed σ;
     sampledValues := sampledValues σ; clients := clients σ;
     primary := primary σ |}.

Definition with_connections
  (f : gmap string ClientRef → gmap string ClientRef) (σ : State) : State :=
  {| ring := ring σ; connections := f (connections σ); removed := removed σ;
     sampledValues := sampledValues σ; clients := clients σ;
     primary := primary σ |}.

Definition with_removed (f : gset string → gset string) (σ : State) : State :=
  {| ring := ring σ; connections := connections σ; removed := f (removed σ);
     sampledValues := sampledValues σ; clients := clients σ;
     primary := primary σ |}.

Definition with_sampledValues
  (f : list Sample → list Sample) (σ : State) : State :=
  {| ring := ring σ; connections := connections σ; removed := removed σ;
     sampledValues := f (sampledValues σ); clients := clients σ;
     primary := primary σ |}.

Definition with_clients
  (f : list ClientObj → list ClientObj) (σ : State) : State :=
  {| ring := ring σ; connections := connections σ; removed := removed σ;
     sampledValues := sampledValues σ; clients := f (clients σ);
     primary := primary σ |}.

Definition with_primary
  (f : gmap Path Msg → gmap Path Msg) (σ : State) : State :=
  {| ring := ring σ; connections := connections σ; removed := removed σ;
     sampledValues := sampledValues σ; clients := clients σ;
     primary := f (primary σ) |}.

(** What a handler does that is visible from outside the program state. *)
Inductive Obs :=
| CallConnectTo (key : string)          (* connectTo(key) was entered *)
| ConsoleLog (line : string)            (* console.log(line) *)
| Report (text : string) (extra : list (string * JsVal))
                                        (* a line of report.ndjson *)
| ReplicaSet (conn : ClientRef) (p : Path) (m : Msg).
                                        (* conn.ref(p).set(m) was issued *)

(** *** Handlers as state transformers that may throw *)

Inductive Completion (A : Type) :=
| Normal (a : A)
| Throw (err : string).
Global Arguments Normal {A} a.
Global Arguments Throw {A} err.

Record Ran (A : Type) := {
  completion : Completion A;
  after : State;
  observed : list Obs;
}.
Global Arguments completion {A} _.
Global Arguments after {A} _.
Global Arguments observed {A} _.

Definition Js (A : Type) : Type := State → Ran A.

Global Instance Js_ret : MRet Js := λ A a σ,
  {| completion := Normal a; after := σ; observed := [] |}.

Global Instance Js_bind : MBind Js := λ A B f m σ,
  let r := m σ in
  match completion r with
  | Normal a =>
      let r' := f a (after r) in
      {| completion := completion r'; after := after r';
         observed := observed r ++ observed r' |}
  | Throw e =>
      {| completion := Throw e; after := after r; observed := observed r |}
  end.

Definition gets {A} (f : State → A) : Js A := λ σ,
  {| completion := Normal (f σ); after := σ; observed := [] |}.

Definition modify (f : State → State) : Js unit := λ σ,
  {| completion := Normal tt; after := f σ; observed := [] |}.

Definition emit (o : Obs) : Js unit := λ σ,
  {| completion := Normal tt; after := σ; observed := [o] |}.

Definition throw {A} (err : string) : Js A := λ σ,
  {| completion := Throw err; after := σ; observed := [] |}.

(** [for (let x of xs) body] *)
Fixpoint for_of {A} (xs : list A) (body : A → Js unit) : Js unit :=
  match xs with
  | [] => mret tt
  | x :: xs' => body x ;; for_of xs' body
  end.

(** A call of an async function whose promise is dropped: the body runs, and
    an exception ends up in a promise nobody looks at. *)
Definition detached {A} (m : Js A) : Js unit := λ σ,
  let r := m σ in
  {| completion := Normal tt; after := after r; observed := observed r |}.

(** A call of an async function whose body does not await: the promise is
    already settled when the call returns. *)
Definition settled {A} (m : Js A) : Js (Completion A) := λ σ,
  let r := m σ in
  {| completion := Normal (completion r); after := after r;
     observed := observed r |}.

(** [console.log] *)
Definition console_log (line : string) : Js unit := emit (ConsoleLog line).

(** [logMsg(msg, extra)]: appends [{ msg, ...extra }] to report.ndjson. *)
Definition logMsg (text : string) (extra : list (string * JsVal)) : Js unit :=
  emit (Report text extra).

(** [for (let key in set)] visits the enumerable string-keyed properties of
    the object.  The members of a [Set] live in an internal slot and are not
    properties, and the methods of [Set.prototype] are not enumerable, so the
    loop body runs for no key. *)
Definition for_in_keys (s : gset string) : list string := [].

(** *** The environment of a run *)

(** Modelled from the spec: the Hash Ring capability (package [ketama], not
    part of the repository) is "given a key and a set of live node
    identifiers, return one owning node deterministically".  [ring.addNode]
    and [ring.removeNode] add to and remove from that set (the field [ring]
    of the state), and [getNode] is some function of the set and the key;
    [None] is [undefined].

    The rest of the environment is the static configuration the script was
    launched with ([serverName], [config.server]) and, for the constructor
    of [AceBaseClient] (package [acebase-client]), the settings for which
    [new AceBaseClient] throws. *)
Record Env := {
  serverName : string;
  server : ServerTable;
  getNode : gset string → string → option string;
  client_ctor_throws : option ConfigEntry → bool;
}.

Section WithEnv.
Context (env : Env).

(** *** Connection registry (lines 80-105) *)

(** [new AceBaseClient({ dbname, ...conf })] *)
Definition new_AceBaseClient (key : string) (conf : option ConfigEntry)
  : Js ClientRef := λ σ,
  if client_ctor_throws env conf then
    {| completion := Throw "AceBaseClient"; after := σ; observed := [] |}
  else
    {| completion := Normal (length (clients σ));
       after := with_clients
                  (λ cs, cs ++ [{| ckey := key; transport := Connecting |}]) σ;
       observed := [] |}.

(** The 'disconnect' listener [connectTo] installs on the client for [key]. *)
Definition on_disconnect (key : string) : Js unit :=
  console_log ("server '" +:+ key +:+ "' connection lost; removing from ring") ;;
  modify (with_ring (λ r, r ∖ {[key]})) ;;
  modify (with_connections (delete key)) ;;
  modify (with_removed (λ s, {[key]} ∪ s)).

(** The handler [connectTo] passes to [client.ready().then]. *)
Definition on_ready (key : string) (client : ClientRef) : Js unit :=
  console_log ("connected to server '" +:+ key +:+ "'") ;;
  modify (with_ring (λ r, {[key]} ∪ r)) ;;
  modify (with_connections (<[key := client]>)).

(** The handler [connectTo] passes to [.catch]. *)
Definition on_ready_failed (key : string) : Js unit :=
  console_log ("failed to connect to server '" +:+ key +:+ "'").

(** [connectTo(key)].  The body contains no [await]: it runs to its [return]
    within the call.  The two handlers it installs run later, as events. *)
Definition connectTo (key : string) : Js ClientRef :=
  emit (CallConnectTo key) ;;
  conns ← gets connections;
  match conns !! key with
  | Some existing => mret existing
  | None =>
      let conf := server_lookup key (server env) in
      client ← new_AceBaseClient key conf;
      mret client
  end.

(** *** buildRing (lines 107-114) *)

Definition buildRing : Js unit :=
  let serverNames := Object_keys (server env) in
  for_of serverNames (λ key,
    if String.eqb key (serverName env) then mret tt
    else detached (connectTo (serverName env))).

(** *** Reconciler (lines 116-126) *)

(** What the promise chain of one loop iteration does once [connectTo] has
    settled: [.then] deletes the key, [.catch] reports the error. *)
Definition checkRemoved_settle (key : string) (c : Completion ClientRef)
  : Js unit :=
  match c with
  | Normal _ => modify (with_removed (λ s, s ∖ {[key]}))
  | Throw err =>
      logMsg "connection failed" [("key", JString key); ("err", JString err)]
  end.

(** The loop calls [connectTo] for each key it visits; the promise
    reactions run after the loop, still within the same tick. *)
Fixpoint checkRemoved_loop (keys : list string)
  : Js (list (string * Completion ClientRef)) :=
  match keys with
  | [] => mret []
  | key :: keys' =>
      c ← settled (connectTo key);
      rest ← checkRemoved_loop keys';
      mret ((key, c) :: rest)
  end.

(** The loop and its reactions, for the keys the loop visits. *)
Definition checkRemoved_visiting (keys : list string) : Js unit :=
  pending ← checkRemoved_loop keys;
  for_of pending (λ kc, checkRemoved_settle (fst kc) (snd kc)).

(** [checkRemoved] *)
Definition checkRemoved : Js unit :=
  keys ← gets (λ σ, for_in_keys (removed σ));
  checkRemoved_visiting keys.

(** *** Router (lines 131-142) *)

(** [replicaFor(root)].  [ring.getNode] and the body of [connectTo] run
    before the first suspension, and the value returned is fixed by then. *)
Definition replicaFor (root : string) : Js (option ClientRef) :=
  upstream ← gets (λ σ, getNode env (ring σ) root);
  match upstream with
  | None =>
      logMsg "all peer nodes marked down" [("ring", JOther)] ;;
      mret None
  | Some owner =>
      conn ← connectTo owner;
      mret (Some conn)
  end.

(** *** The primary store *)

(** The store (package [acebase]) is not part of the repository.  The state
    holds its [{ msg, ts }] records by path. *)

(** [q] lies strictly below [p]. *)
Definition below (p q : Path) : bool :=
  bool_decide (p `prefix_of` q) && negb (bool_decide (p = q)).

(** Modelled from the spec: "write(path, value)" over "slash-delimited
    hierarchical keys".  [ref(p).set(m)] replaces whatever was stored at and
    below [p]. *)
Definition store_set (p : Path) (m : Msg) (s : gmap Path Msg)
  : gmap Path Msg :=
  <[p := m]> (filter (λ kv, negb (below p (fst kv))) s).

Definition has_entry_from (p : Path) (s : gmap Path Msg) : bool :=
  existsb (λ q, bool_decide (p `prefix_of` q)) (elements (dom s)).

(** What reading one property of a value can give. *)
Inductive Field :=
| FUndefined
| FString (s : string)
| FObject.

(** Modelled from the spec: "read(path) → value", where "writes under a
    parent path may auto-generate a unique child segment".  A path with a
    record of its own reads as that record; a path with records only below
    it reads as the collection of its children, keyed by child segment; a
    path with nothing at or below it reads as [null].
    [read_msg p s] is [(await client.ref(p).proxy()).value.msg]. *)
Definition read_msg (p : Path) (s : gmap Path Msg) : Completion Field :=
  match s !! p with
  | Some m => Normal (FString (msg m))
  | None =>
      if has_entry_from (p ++ ["msg"]) s then Normal FObject
      else if has_entry_from p s then Normal FUndefined
      else Throw "TypeError: Cannot read properties of null"
  end.

(** [imsg != vmsg], the left operand a string. *)
Definition loose_neq (imsg : string) (vmsg : Field) : bool :=
  match vmsg with
  | FUndefined => true
  | FString s => negb (String.eqb imsg s)
  | FObject => negb (String.eqb imsg "[object Object]")
  end.

Definition Field_val (f : Field) : JsVal :=
  match f with
  | FUndefined => JUndefined
  | FString s => JString s
  | FObject => JOther
  end.

(** *** Populator (lines 144-184) *)

(** The double nearest to [0.1]. *)
Definition SAMPLE_RATE : Q := (3602879701896397 # 36028797018963968)%Q.
Definition SAMPLE_COUNT : Z := 100.

(** [l.slice(start)] *)
Definition slice {A} (start : Z) (l : list A) : list A :=
  let len := Z.of_nat (length l) in
  let from := if (start <? 0)%Z then Z.max (len + start) 0
              else Z.min start len in
  drop (Z.to_nat from) l.

(** [x < y] on doubles, which are rationals. *)
Definition double_lt (x y : Q) : bool :=
  match (x ?= y)%Q with
  | Lt => true
  | _ => false
  end.

(** What one loop iteration takes from outside: [new Date()],
    [Math.random()] and the child key [push()] generates. *)
Record Draw := { now : Z; random : Q; pushId : string }.

Definition test_objs : list string := ["a"; "b"; "c"; "d"; "e"; "f"; "g"].

(** The body of the loop of [populateRing] for one [obj]; the result is what
    the iteration adds to [failure] before it ends.  The outcome of the write
    to the replica arrives later and is not part of the iteration. *)
Definition populateRing_body (obj : string) (d : Draw) : Js nat :=
  let m := {| msg := "testing for ref " +:+ obj; ts := now d |} in
  let objPath := ["test"; obj] in
  let ref := objPath ++ [pushId d] in
  modify (with_primary (store_set ref m)) ;;
  (if double_lt (random d) SAMPLE_RATE then
     modify (with_sampledValues (λ sv, sv ++ [{| path := objPath; inner := m |}])) ;;
     modify (with_sampledValues (slice (- SAMPLE_COUNT)))
   else mret tt) ;;
  upstream ← replicaFor (path_string objPath);
  match upstream with
  | None =>
      logMsg ("failed to get replica for '" +:+ obj +:+ "'") [] ;;
      mret 1
  | Some conn =>
      emit (ReplicaSet conn ref m) ;;
      mret 0
  end.

(** *** Sampler (lines 205-217) *)

Definition testRing_body (sample : Sample) : Js unit :=
  let p := path sample in
  let inner := inner sample in
  read ← gets (λ σ, read_msg p (primary σ));
  match read with
  | Throw err => throw err
  | Normal vmsg =>
      let imsg := msg inner in
      if loose_neq imsg vmsg then
        logMsg ("mismatched sample value for '" +:+ path_string (path sample))
               [("path", JString (path_string p)); ("imsg", JString imsg);
                ("vmsg", Field_val vmsg)]
      else mret tt
  end.

Definition testRing : Js unit :=
  samples ← gets sampledValues;
  for_of samples testRing_body.

(** *** Executions *)

(** One handler run.  [EvReady], [EvReadyFailed] and [EvDisconnect] are the
    transport of a client settling [ready()] or emitting 'disconnect';
    [EvExternalSet] is another party writing to the primary store; the others
    are the script's own functions being called.  A tick of [populateRing] is
    [EvBuildRing] followed by one [EvPopulate] for each of [test_objs], with
    other events in between wherever the function awaits; its closing report
    of the counters is not modelled. *)
Inductive Event :=
| EvConnectTo (key : string)
| EvReady (c : ClientRef)
| EvReadyFailed (c : ClientRef)
| EvDisconnect (c : ClientRef)
| EvBuildRing
| EvCheckRemoved
| EvReplicaFor (root : string)
| EvPopulate (obj : string) (d : Draw)
| EvTestRing
| EvExternalSet (p : Path) (m : Msg).

Definition set_transport (c : ClientRef) (t : Transport) (σ : State) : State :=
  with_clients (λ cs,
    match cs !! c with
    | Some o => <[c := {| ckey := ckey o; transport := t |}]> cs
    | None => cs
    end) σ.

(** A transport event happens to a client that exists and is in the state
    the event leaves from. *)
Definition transport_event (c : ClientRef) (from to : Transport)
  (handler : string → Js unit) (σ : State) : option State :=
  match clients σ !! c with
  | Some o =>
      if decide (transport o = from)
      then Some (after (handler (ckey o) (set_transport c to σ)))
      else None
  | None => None
  end.

Definition step (ev : Event) (σ : State) : option State :=
  match ev with
  | EvConnectTo key => Some (after (connectTo key σ))
  | EvReady c => transport_event c Connecting Live (λ key, on_ready key c) σ
  | EvReadyFailed c => transport_event c Connecting Failed on_ready_failed σ
  | EvDisconnect c => transport_event c Live Dropped on_disconnect σ
  | EvBuildRing => Some (after (buildRing σ))
  | EvCheckRemoved => Some (after (checkRemoved σ))
  | EvReplicaFor root => Some (after (replicaFor root σ))
  | EvPopulate obj d =>
      if bool_decide (obj ∈ test_objs)
      then Some (after (populateRing_body obj d σ))
      else None
  | EvTestRing => Some (after (testRing σ))
  | EvExternalSet p m => Some (with_primary (store_set p m) σ)
  end.

Fixpoint run (evs : list Event) (σ : State) : option State :=
  match evs with
  | [] => Some σ
  | ev :: evs' =>
      match step ev σ with
      | Some σ' => run evs' σ'
      | None => None
      end
  end.

Definition reachable (σ : State) : Prop :=
  ∃ evs, run evs initial = Some σ.

End WithEnv.

(** *** Reading an execution *)

(** The arguments of the [connectTo] calls among some observations. *)
Definition connect_calls (os : list Obs) : list string :=
  omap (λ o, match o with CallConnectTo key => Some key | _ => None end) os.

(** The samples the populator pushed during an execution, oldest first. *)
Fixpoint pushed_samples (evs : list Event) : list Sample :=
  match evs with
  | [] => []
  | EvPopulate obj d :: evs' =>
      if double_lt (random d) SAMPLE_RATE then
        {| path := ["test"; obj];
           inner := {| msg := "testing for ref " +:+ obj; ts := now d |} |}
        :: pushed_samples evs'
      else pushed_samples evs'
  | _ :: evs' => pushed_samples evs'
  end.

(** The last [n] elements of a list. *)
Definition most_recent {A} (n : nat) (l : list A) : list A :=
  drop (length l - n) l.

(** Every key of the ring has a handle in [connections], and the handle is a
    client made for that key whose connection is established. *)
Definition ring_members_live (σ : State) : Prop :=
  ∀ key, key ∈ ring σ →
    ∃ c o, connections σ !! key = Some c ∧ clients σ !! c = Some o
           ∧ ckey o = key ∧ transport o = Live.

(** No node has two established connections. *)
Definition one_live_per_node (σ : State) : Prop :=
  ∀ c1 c2 o1 o2,
    clients σ !! c1 = Some o1 → clients σ !! c2 = Some o2 →
    ckey o1 = ckey o2 → transport o1 = Live → transport o2 = Live →
    c1 = c2.

(** [σ'] differs from [σ] at most by client objects constructed since. *)
Definition only_adds_clients (σ σ' : State) : Prop :=
  ring σ' = ring σ ∧ connections σ' = connections σ
  ∧ removed σ' = removed σ ∧ sampledValues σ' = sampledValues σ
  ∧ primary σ' = primary σ ∧ ∃ new, clients σ' = clients σ ++ new.

(** A handler that at most constructs clients. *)
Definition frames {A} (m : Js A) : Prop :=
  ∀ σ, only_adds_clients σ (after (m σ)).

(** The state an execution ends in (the initial state if it cannot run). *)
Definition state_after (env : Env) (evs : list Event) : State :=
  default initial (run env evs initial).

(** *** Concrete environments *)

Definition entry (p : Z) : ConfigEntry :=
  {| host := "localhost"; port := p; https := false |}.

(** Three configured nodes, the script launched as node "a"; the ring hands
    out its first member. *)
Definition env_abc : Env :=
  {| serverName := "a";
     server := [("a", entry 5757); ("b", entry 5758); ("c", entry 5759)];
     getNode := λ members _, head (elements members);
     client_ctor_throws := λ _, false |}.

Definition draw_g : Draw :=
  {| now := 1000; random := (1 # 20)%Q; pushId := "k0" |}.

(** Node "a" has connected to itself once; the second attempt is pending. *)
Definition state_connected : State :=
  state_after env_abc [EvBuildRing; EvReady 0].




End Coordinator.

(** ** Further readings of an execution *)

Section FurtherReadings.
Import Coordinator.

(** The events the script produces by itself: its timers and the transport
    of the clients it made.  [EvConnectTo] stands for a caller of [connectTo]
    other than [buildRing], [checkRemoved] and [replicaFor]; the script has
    none. *)
Definition script_event (ev : Event) : bool :=
  match ev with
  | EvConnectTo _ => false
  | _ => true
  end.

(** Events other than a write to the primary store by another party. *)
Definition own_write (ev : Event) : bool :=
  match ev with
  | EvExternalSet _ _ => false
  | _ => true
  end.

(** The ring and the connections map hold the same node identifiers. *)
Definition ring_is_registry (σ : State) : Prop :=
  ring σ = dom (connections σ).

(** Every node in the removed set had a client whose connection dropped. *)
Definition removed_were_dropped (σ : State) : Prop :=
  ∀ key, key ∈ removed σ →
    ∃ c o, clients σ !! c = Some o ∧ ckey o = key ∧ transport o = Dropped.

(** Every client was made for the node [name]. *)
Definition clients_all_for (name : string) (σ : State) : Prop :=
  Forall (λ o, ckey o = name) (clients σ).

(** The report line [testRing] writes for [sample] when it read [vmsg]. *)
Definition mismatch_report (sample : Sample) (vmsg : JsVal) : Obs :=
  Report ("mismatched sample value for '" +:+ path_string (path sample))
         [("path", JString (path_string (path sample)));
          ("imsg", JString (msg (inner sample)));
          ("vmsg", vmsg)].

(** The record the populator writes for [obj] at time [t]. *)
Definition test_record (obj : string) (t : Z) : Msg :=
  {| msg := "testing for ref " +:+ obj; ts := t |}.

(** The state one iteration of the populator's loop is in when it calls
    [replicaFor]: the record is in the primary store, and the sample, if
    drawn, in the buffer. *)
Definition written_and_sampled (obj : string) (d : Draw) (σ : State) : State :=
  let σ1 := with_primary
              (store_set ["test"; obj; pushId d] (test_record obj (now d))) σ in
  if double_lt (random d) SAMPLE_RATE then
    with_sampledValues (slice (- SAMPLE_COUNT))
      (with_sampledValues
         (λ sv, sv ++ [{| path := ["test"; obj];
                          inner := test_record obj (now d) |}]) σ1)
  else σ1.

(** The store holds records at pushed children [/test/<obj>/<id>] only, and
    every retained sample is a record of the populator for some [obj], kept
    under [/test/<obj>], with a pushed child of that path in the store. *)
Definition samples_written (σ : State) : Prop :=
  (∀ q : Path, is_Some (primary σ !! q) → length q = 3)
  ∧ ∀ sample, sample ∈ sampledValues σ →
      ∃ obj t id,
        sample = {| path := ["test"; obj]; inner := test_record obj t |}
        ∧ is_Some (primary σ !! ["test"; obj; id]).


(** The client [connectTo(serverName)] constructs. *)
Definition pending_self (env : Env) : ClientObj :=
  {| ckey := serverName env; transport := Connecting |}.

(** [connectTo(serverName)] constructs nothing: the local node has a handle
    in the connections map, or the constructor throws for its settings. *)
Definition self_blocked (env : Env) (σ : State) : bool :=
  bool_decide (is_Some (connections σ !! serverName env))
  || client_ctor_throws env (server_lookup (serverName env) (server env)).

End FurtherReadings.

(** ** The earlier coordinator (src/unnamed/part_000) *)

(** The same script at an earlier stage: the ring holds [{ key, client }]
    entries, [buildRing] constructs the clients itself, and the router keeps
    the entry it resolved for a path in [clientCache]. *)

Module Legacy.

(** [type CacheEntry = { key, client }] *)
Record CacheEntry := { key : string; client : Coordinator.ClientRef }.

(** A client object: the node it was made for, what has happened to its
    transport, and whether it was given the 'disconnect' listener and the
    [ready()] handlers ([buildRing] installs them, [checkRemoved] does
    not). *)
Record ClientObj := {
  ckey : string;
  transport : Coordinator.Transport;
  listens : bool;
}.

(** What the script prints: [console.log], [.info], [.error], [.debug]. *)
Inductive Out :=
| Console (level : string) (line : string).

(** The static configuration, the [HashRing<CacheEntry>] of package
    [ketama] as an abstract data type ([ring_empty] is [new HashRing()]),
    and the settings for which [new AceBaseClient] throws. *)
Record Env := {
  serverName : string;
  server : ServerTable;
  Ring : Type;
  ring_empty : Ring;
  addNode : CacheEntry → Ring → Ring;
  removeNode : CacheEntry → Ring → Ring;
  getNode : Ring → string → option CacheEntry;
  client_ctor_throws : option ConfigEntry → bool;
}.

(** *** Start-up (lines 17-45) *)

(** Lines 38-45: [serverConfig] is [config.server[serverName]] itself. *)
Definition startup (l : Startup.Launch) : Startup.Outcome :=
  let adminPassword := Startup.env_DB_ADMIN_PASSWORD l in
  if Startup.is_string_undefined adminPassword then
    Startup.Exit 1 "missing DB_ADMIN_PASSWORD environment variable"
  else
    match Startup.argv_name l with
    | None => Startup.Exit 1 "missing --name argument"
    | Some serverName =>
        match server_lookup serverName (Startup.config_server l) with
        | None =>
            Startup.Exit 1
              ("server " +:+ serverName +:+ " not found in servers.toml")
        | Some serverConfig =>
            Startup.Proceed serverName adminPassword
                            (spread (Some serverConfig))
        end
    end.

Section WithEnv.
Context (env : Env).

(** The module-level variables [ring], [connections], [removed] and
    [clientCache], the client objects [buildRing] and [checkRemoved] have
    constructed, and the primary store.  The top-level [client] of line 68,
    through which the script reaches the primary store of the local node, is
    not one of [clients]. *)
Record State := {
  ring : Ring env;
  connections : gmap string Coordinator.ClientRef;
  removed : gset string;
  clientCache : gmap string CacheEntry;
  clients : list ClientObj;
  primary : gmap Coordinator.Path Coordinator.Msg;
}.

Definition initial : State :=
  {| ring := ring_empty env; connections := ∅; removed := ∅;
     clientCache := ∅; clients := []; primary := ∅ |}.

Definition with_ring (f : Ring env → Ring env) (σ : State) : State :=
  {| ring := f (ring σ); connections := connections σ; removed := removed σ;
     clientCache := clientCache σ; clients := clients σ;
     primary := primary σ |}.

Definition with_connections
  (f : gmap string Coordinator.ClientRef → gmap string Coordinator.ClientRef)
  (σ : State) : State :=
  {| ring := ring σ; connections := f (connections σ); removed := removed σ;
     clientCache := clientCache σ; clients := clients σ;
     primary := primary σ |}.

Definition with_removed (f : gset string → gset string) (σ : State) : State :=
  {| ring := ring σ; connections := connections σ; removed := f (removed σ);
     clientCache := clientCache σ; clients := clients σ;
     primary := primary σ |}.

Definition with_clientCache
  (f : gmap string CacheEntry → gmap string CacheEntry) (σ : State) : State :=
  {| ring := ring σ; connections := connections σ; removed := removed σ;
     clientCache := f (clientCache σ); clients := clients σ;
     primary := primary σ |}.

Definition with_clients (f : list ClientObj → list ClientObj) (σ : State)
  : State :=
  {| ring := ring σ; connections := connections σ; removed := removed σ;
     clientCache := clientCache σ; clients := f (clients σ);
     primary := primary σ |}.

Definition with_primary
  (f : gmap Coordinator.Path Coordinator.Msg
       → gmap Coordinator.Path Coordinator.Msg) (σ : State) : State :=
  {| ring := ring σ; connections := connections σ; removed := removed σ;
     clientCache := clientCache σ; clients := clients σ;
     primary := f (primary σ) |}.

(** What a function call ends in: its completion, the state, the output. *)
Record Ran (A : Type) := {
  completion : Coordinator.Completion A;
  after : State;
  printed : list Out;
}.
Global Arguments completion {A} _.
Global Arguments after {A} _.
Global Arguments printed {A} _.

(** *** buildRing (lines 81-109) *)

(** The 'disconnect' listener of the client in [cacheEntry]. *)
Definition on_disconnect (cacheEntry : CacheEntry) (σ : State) : Ran unit :=
  {| completion := Coordinator.Normal tt;
     after :=
       with_removed (λ s, {[key cacheEntry]} ∪ s)
         (with_connections (delete (key cacheEntry))
            (with_ring (removeNode env cacheEntry) σ));
     printed :=
       [Console "log" ("server '" +:+ key cacheEntry
                       +:+ "' connection lost; removing from ring")] |}.

(** The handler passed to [client.ready().then]. *)
Definition on_ready (cacheEntry : CacheEntry) (σ : State) : Ran unit :=
  {| completion := Coordinator.Normal tt;
     after :=
       with_connections (<[key cacheEntry := client cacheEntry]>)
         (with_ring (addNode env cacheEntry) σ);
     printed :=
       [Console "log" ("connected to server '" +:+ key cacheEntry +:+ "'")] |}.

(** The handler passed to [.catch]. *)
Definition on_ready_failed (cacheEntry : CacheEntry) (σ : State) : Ran unit :=
  {| completion := Coordinator.Normal tt; after := σ;
     printed :=
       [Console "log" ("failed to connect to server '" +:+ key cacheEntry
                       +:+ "'")] |}.

(** The loop of [buildRing].  The constructor is called in the loop body
    itself, so an exception of the constructor ends the loop. *)
Fixpoint buildRing_loop (serverNames : list string) (σ : State) : Ran unit :=
  match serverNames with
  | [] => {| completion := Coordinator.Normal tt; after := σ; printed := [] |}
  | key :: serverNames' =>
      if String.eqb key (serverName env) then buildRing_loop serverNames' σ
      else if bool_decide (is_Some (connections σ !! key))
      then buildRing_loop serverNames' σ
      else
        let conf := server_lookup key (server env) in
        if client_ctor_throws env conf then
          {| completion := Coordinator.Throw "AceBaseClient"; after := σ;
             printed := [] |}
        else
          buildRing_loop serverNames'
            (with_clients
               (λ cs, cs ++ [{| ckey := key;
                                transport := Coordinator.Connecting;
                                listens := true |}])
               σ)
  end.

Definition buildRing (σ : State) : Ran unit :=
  buildRing_loop (Object_keys (server env)) σ.

(** *** checkRemoved (lines 111-127) *)

(** The body of the loop for one key, given whether [client.ready()]
    fulfils; the [try] catches an exception of the constructor and a
    rejection of [ready()] alike.  The client it constructs gets no
    listener, and its entry goes into the ring but not into [connections]. *)
Definition checkRemoved_body (ready_ok : bool) (key : string) (σ : State)
  : Ran unit :=
  let sc := server_lookup key (server env) in
  let failed :=
    [Console "error" ("failed to reconnect to server '" +:+ key +:+ "'")] in
  if client_ctor_throws env sc then
    {| completion := Coordinator.Normal tt; after := σ; printed := failed |}
  else
    let c := length (clients σ) in
    if ready_ok then
      {| completion := Coordinator.Normal tt;
         after :=
           with_removed (λ s, s ∖ {[key]})
             (with_ring (addNode env {| key := key; client := c |})
                (with_clients
                   (λ cs, cs ++ [{| ckey := key;
                                    transport := Coordinator.Live;
                                    listens := false |}])
                   σ));
         printed :=
           [Console "info" ("reconnected to server '" +:+ key +:+ "'")] |}
    else
      {| completion := Coordinator.Normal tt;
         after :=
           with_clients
             (λ cs, cs ++ [{| ckey := key;
                              transport := Coordinator.Failed;
                              listens := false |}])
             σ;
         printed := failed |}.

Fixpoint checkRemoved_loop (ready_ok : string → bool) (keys : list string)
  (σ : State) : State * list Out :=
  match keys with
  | [] => (σ, [])
  | key :: keys' =>
      let r := checkRemoved_body (ready_ok key) key σ in
      let rest := checkRemoved_loop ready_ok keys' (after r) in
      (fst rest, printed r ++ snd rest)
  end.

(** [checkRemoved], with [for (let key in removed)] as in
    [Coordinator.for_in_keys]. *)
Definition checkRemoved (ready_ok : string → bool) (σ : State) : Ran unit :=
  let keys := Coordinator.for_in_keys (removed σ) in
  let looped := checkRemoved_loop ready_ok keys σ in
  {| completion := Coordinator.Normal tt;
     after := fst looped;
     printed := [Console "log" "checkRemoved:begin"] ++ snd looped
                ++ [Console "log" "checkRemoved:end"] |}.

(** *** replicaFor (lines 132-150) *)

Definition replicaFor (root : string) (σ : State)
  : Ran (option Coordinator.ClientRef) :=
  let cacheEntry := clientCache σ !! root in
  match client <$> cacheEntry with
  | Some cached =>
      {| completion := Coordinator.Normal (Some cached); after := σ;
         printed := [] |}
  | None =>
      let line :=
        Console "log" ("no cached connection for '" +:+ root
                       +:+ "'; trying next host") in
      match getNode env (ring σ) root with
      | None =>
          {| completion := Coordinator.Normal None; after := σ;
             printed := [line; Console "error" "all peer nodes down!"] |}
      | Some upstream =>
          {| completion := Coordinator.Normal (Some (client upstream));
             after := with_clientCache (<[root := upstream]>) σ;
             printed :=
               [line;
                Console "debug" ("connecting to '" +:+ key upstream +:+ "'")] |}
      end
  end.

(** *** testRing (lines 152-187) *)

(** One iteration of the loop of [testRing] for [obj], given the time, the
    key [push()] generates and whether the write to the replica succeeds.
    The result is what the iteration adds to [success] and to [failure]. *)
Definition testRing_body (obj : string) (now : Z) (pushId : string)
  (replica_ok : bool) (σ : State) : Ran (nat * nat) :=
  let m := {| Coordinator.msg := "testing for ref " +:+ obj;
              Coordinator.ts := now |} in
  let objPath := ["test"; obj] in
  let ref := objPath ++ [pushId] in
  let σ1 := with_primary (Coordinator.store_set ref m) σ in
  let routed := replicaFor (Coordinator.path_string objPath) σ1 in
  match completion routed with
  | Coordinator.Throw e =>
      {| completion := Coordinator.Throw e; after := after routed;
         printed := printed routed |}
  | Coordinator.Normal None =>
      {| completion := Coordinator.Normal (0, 1); after := after routed;
         printed :=
           printed routed
           ++ [Console "error" ("failed to get replica for '" +:+ obj +:+ "'")] |}
  | Coordinator.Normal (Some upstream) =>
      if replica_ok then
        {| completion := Coordinator.Normal (1, 0); after := after routed;
           printed := printed routed |}
      else
        {| completion := Coordinator.Normal (0, 1); after := after routed;
           printed :=
             printed routed
             ++ [Console "error" ("failed to update '" +:+ obj +:+ "' on peer")] |}
  end.

(** *** Executions *)

Inductive Event :=
| EvReady (c : Coordinator.ClientRef)
| EvReadyFailed (c : Coordinator.ClientRef)
| EvDisconnect (c : Coordinator.ClientRef)
| EvBuildRing
| EvCheckRemoved (ready_ok : string → bool)
| EvReplicaFor (root : string)
| EvTestRingBody (obj : string) (now : Z) (pushId : string) (replica_ok : bool).

Definition set_transport (c : Coordinator.ClientRef)
  (t : Coordinator.Transport) (σ : State) : State :=
  with_clients (λ cs,
    match cs !! c with
    | Some o => <[c := {| ckey := ckey o; transport := t;
                          listens := listens o |}]> cs
    | None => cs
    end) σ.

(** A transport event happens to a client that is in the state the event
    leaves from, and runs a handler if the client was given one; the
    handlers close over the entry [{ key, client }]. *)
Definition transport_event (c : Coordinator.ClientRef)
  (from to : Coordinator.Transport)
  (handler : CacheEntry → State → Ran unit) (σ : State) : option State :=
  match clients σ !! c with
  | Some o =>
      if decide (transport o = from) then
        if listens o
        then Some (after (handler {| key := ckey o; client := c |}
                                  (set_transport c to σ)))
        else Some (set_transport c to σ)
      else None
  | None => None
  end.

Definition step (ev : Event) (σ : State) : option State :=
  match ev with
  | EvReady c =>
      transport_event c Coordinator.Connecting Coordinator.Live on_ready σ
  | EvReadyFailed c =>
      transport_event c Coordinator.Connecting Coordinator.Failed
                      on_ready_failed σ
  | EvDisconnect c =>
      transport_event c Coordinator.Live Coordinator.Dropped on_disconnect σ
  | EvBuildRing => Some (after (buildRing σ))
  | EvCheckRemoved ready_ok => Some (after (checkRemoved ready_ok σ))
  | EvReplicaFor root => Some (after (replicaFor root σ))
  | EvTestRingBody obj now pushId replica_ok =>
      if bool_decide (obj ∈ Coordinator.test_objs)
      then Some (after (testRing_body obj now pushId replica_ok σ))
      else None
  end.

Fixpoint run (evs : list Event) (σ : State) : option State :=
  match evs with
  | [] => Some σ
  | ev :: evs' =>
      match step ev σ with
      | Some σ' => run evs' σ'
      | None => None
      end
  end.

End WithEnv.


(** The client [buildRing] constructs for [key]. *)
Definition pending (key : string) : ClientObj :=
  {| ckey := key; transport := Coordinator.Connecting; listens := true |}.

Global Arguments ring {env} _.
Global Arguments connections {env} _.
Global Arguments removed {env} _.
Global Arguments clientCache {env} _.
Global Arguments clients {env} _.
Global Arguments primary {env} _.
Global Arguments completion {env A} _.
Global Arguments after {env A} _.
Global Arguments printed {env A} _.

End Legacy.

(** ** Concrete inputs for the further properties *)

Section FurtherInputs.

(** Node "a" connected to itself, and that connection dropped. *)
Definition state_dropped : Coordinator.State :=
  Coordinator.state_after Coordinator.env_abc
    [Coordinator.EvBuildRing; Coordinator.EvReady 0;
     Coordinator.EvDisconnect 0].

(** The populator has written and sampled "g"; then another party has set
    [/test/g] itself. *)
Definition state_overwritten : Coordinator.State :=
  Coordinator.state_after Coordinator.env_abc
    [Coordinator.EvPopulate "g" Coordinator.draw_g;
     Coordinator.EvExternalSet ["test"; "g"]
       {| Coordinator.msg := "y"; Coordinator.ts := 2000 |}].

(** The populator has written and sampled "g"; then another party has set
    [/test], which leaves nothing at or below [/test/g]. *)
Definition state_parent_overwritten : Coordinator.State :=
  Coordinator.state_after Coordinator.env_abc
    [Coordinator.EvPopulate "g" Coordinator.draw_g;
     Coordinator.EvExternalSet ["test"]
       {| Coordinator.msg := "y"; Coordinator.ts := 2000 |}].

(** Three configured nodes, the earlier script launched as node "a"; a
    ring that keeps its entries in a list and hands out the first. *)
Definition legacy_env_abc : Legacy.Env :=
  {| Legacy.serverName := "a";
     Legacy.server := [("a", Coordinator.entry 5757);
                       ("b", Coordinator.entry 5758);
                       ("c", Coordinator.entry 5759)];
     Legacy.Ring := list Legacy.CacheEntry;
     Legacy.ring_empty := [];
     Legacy.addNode := λ e r, r ++ [e];
     Legacy.removeNode := λ e r,
       List.filter (λ e', negb (String.eqb (Legacy.key e') (Legacy.key e))) r;
     Legacy.getNode := λ r _, head r;
     Legacy.client_ctor_throws := λ _, false |}.


(** The state an execution of the earlier script ends in. *)
Definition legacy_state_after (env : Legacy.Env) (evs : list Legacy.Event)
  : Legacy.State env :=
  default (Legacy.initial env) (Legacy.run env evs (Legacy.initial env)).

(** The earlier script has connected to "b" and resolved [/test/a]. *)
Definition legacy_state_resolved : Legacy.State legacy_env_abc :=
  legacy_state_after legacy_env_abc
    [Legacy.EvBuildRing; Legacy.EvReady 0; Legacy.EvReplicaFor "/test/a"].

End FurtherInputs.

(** * Properties *)

(** ** Start-up *)

Section StartupFacts.
Import Startup.

(** An unset [--name] is the one configuration error the checks catch. *)
Lemma startup_unset_name l :
  argv_name l = None → exits_nonzero (startup l).
Proof.
  intros Hn. unfold startup. rewrite Hn.
  destruct (is_string_undefined _); simpl; lia.
Qed.

(** The third check can never fire: [serverConfig] is always an object. *)
Lemma make_serverConfig_defined t n : is_Some (make_serverConfig t n).
Proof. unfold make_serverConfig. eauto. Qed.

(** The first check fires only for the string "undefined". *)
Lemma startup_password_check l :
  is_string_undefined (env_DB_ADMIN_PASSWORD l) = true
  ↔ env_DB_ADMIN_PASSWORD l = Some "undefined".
Proof.
  unfold is_string_undefined. destruct (env_DB_ADMIN_PASSWORD l) as [s|].
  - rewrite String.eqb_eq. split; congruence.
  - split; discriminate.
Qed.

(** C2, at the failing inputs: with the credential missing from the
    environment, and likewise with a node name that is not in the static
    mapping, the start-up checks do not exit; control reaches the code that
    builds the server, the ring and the timers. *)
Theorem startup_misses_config_errors :
  config_error launch_no_password
  ∧ startup launch_no_password
    = Proceed "a" None
        [("logLevel", JString "warn"); ("host", JString "localhost");
         ("port", JNumber 5757); ("https", JBool false)]
  ∧ config_error launch_unknown_node
  ∧ startup launch_unknown_node
    = Proceed "z" (Some "secret") [("logLevel", JString "warn")].
Proof.
  repeat split.
  - right. right. reflexivity.
  - right. left. exists "z". split; reflexivity.
Qed.

End StartupFacts.

(** ** Coordinator *)

Section CoordinatorFacts.
Import Coordinator.
Context (env : Env).

(** *** Running handlers *)

Lemma bind_run {A B} (m : Js A) (f : A → Js B) σ :
  (m ≫= f) σ =
  match completion (m σ) with
  | Normal a =>
      {| completion := completion (f a (after (m σ)));
         after := after (f a (after (m σ)));
         observed := observed (m σ) ++ observed (f a (after (m σ))) |}
  | Throw e =>
      {| completion := Throw e; after := after (m σ);
         observed := observed (m σ) |}
  end.
Proof. reflexivity. Qed.

Ltac run_js :=
  repeat (rewrite bind_run; simpl);
  unfold gets, modify, emit, throw, console_log, logMsg, detached, settled;
  simpl.

(** *** connectTo *)

(** With a handle in the map, [connectTo] takes the early return. *)
Lemma connectTo_registered σ key existing :
  connections σ !! key = Some existing →
  connectTo env key σ
  = {| completion := Normal existing; after := σ;
       observed := [CallConnectTo key] |}.
Proof.
  intros Hk. unfold connectTo. run_js. rewrite Hk. reflexivity.
Qed.

(** Without a handle in the map, [connectTo] constructs a client, whatever
    other clients for the same key already exist. *)
Lemma connectTo_fresh σ key :
  connections σ !! key = None →
  client_ctor_throws env (server_lookup key (server env)) = false →
  connectTo env key σ
  = {| completion := Normal (length (clients σ));
       after := with_clients
                  (λ cs, cs ++ [{| ckey := key; transport := Connecting |}]) σ;
       observed := [CallConnectTo key] |}.
Proof.
  intros Hk Hc. unfold connectTo. run_js. rewrite Hk.
  run_js. unfold new_AceBaseClient. rewrite Hc. reflexivity.
Qed.

(** If the constructor throws, so does [connectTo], and nothing changes. *)
Lemma connectTo_throws σ key :
  connections σ !! key = None →
  client_ctor_throws env (server_lookup key (server env)) = true →
  connectTo env key σ
  = {| completion := Throw "AceBaseClient"; after := σ;
       observed := [CallConnectTo key] |}.
Proof.
  intros Hk Hc. unfold connectTo. run_js. rewrite Hk.
  run_js. unfold new_AceBaseClient. rewrite Hc. reflexivity.
Qed.

(** Every call of [connectTo] is observed once, with its argument. *)
Lemma connectTo_observed σ key :
  observed (connectTo env key σ) = [CallConnectTo key].
Proof.
  destruct (connections σ !! key) as [c|] eqn:Hk.
  - by rewrite (connectTo_registered _ _ _ Hk).
  - destruct (client_ctor_throws env (server_lookup key (server env))) eqn:Hc.
    + by rewrite connectTo_throws.
    + by rewrite connectTo_fresh.
Qed.

(** *** Handlers that leave the registry alone *)

Lemma only_adds_clients_refl σ : only_adds_clients σ σ.
Proof. repeat split. exists []. by rewrite app_nil_r. Qed.

Lemma only_adds_clients_trans σ1 σ2 σ3 :
  only_adds_clients σ1 σ2 → only_adds_clients σ2 σ3 →
  only_adds_clients σ1 σ3.
Proof.
  intros (Hr & Hc & Hd & Hs & Hp & n1 & Hn1) (Hr' & Hc' & Hd' & Hs' & Hp' & n2 & Hn2).
  repeat split; try congruence.
  exists (n1 ++ n2). rewrite Hn2, Hn1. by rewrite app_assoc.
Qed.

Lemma frames_ret {A} (a : A) : frames (mret a : Js A).
Proof. intros σ. apply only_adds_clients_refl. Qed.

Lemma frames_bind {A B} (m : Js A) (f : A → Js B) :
  frames m → (∀ a, frames (f a)) → frames (m ≫= f).
Proof.
  intros Hm Hf σ. rewrite bind_run.
  destruct (completion (m σ)) as [a|e]; simpl; [|apply Hm].
  eapply only_adds_clients_trans; [apply Hm | apply Hf].
Qed.

Lemma frames_gets {A} (f : State → A) : frames (gets f).
Proof. intros σ. apply only_adds_clients_refl. Qed.

Lemma frames_emit o : frames (emit o).
Proof. intros σ. apply only_adds_clients_refl. Qed.

Lemma frames_throw {A} e : frames (throw e : Js A).
Proof. intros σ. apply only_adds_clients_refl. Qed.

Lemma frames_detached {A} (m : Js A) : frames m → frames (detached m).
Proof. intros Hm σ. apply Hm. Qed.

Lemma frames_settled {A} (m : Js A) : frames m → frames (settled m).
Proof. intros Hm σ. apply Hm. Qed.

Lemma frames_for_of {A} (xs : list A) (body : A → Js unit) :
  (∀ x, frames (body x)) → frames (for_of xs body).
Proof.
  intros Hb. induction xs as [|x xs IH]; simpl.
  - apply frames_ret.
  - apply frames_bind; [apply Hb | intros _; apply IH].
Qed.

Lemma frames_connectTo key : frames (connectTo env key).
Proof.
  intros σ. destruct (connections σ !! key) as [c|] eqn:Hk.
  - rewrite (connectTo_registered _ _ _ Hk). apply only_adds_clients_refl.
  - destruct (client_ctor_throws env (server_lookup key (server env))) eqn:Hc.
    + rewrite connectTo_throws by done. apply only_adds_clients_refl.
    + rewrite connectTo_fresh by done. repeat split. simpl. eauto.
Qed.

Lemma frames_buildRing : frames (buildRing env).
Proof.
  unfold buildRing. apply frames_for_of. intros key.
  destruct (String.eqb key (serverName env)).
  - apply frames_ret.
  - apply frames_detached, frames_connectTo.
Qed.

Lemma frames_replicaFor root : frames (replicaFor env root).
Proof.
  unfold replicaFor. apply frames_bind; [apply frames_gets|].
  intros [owner|].
  - apply frames_bind; [apply frames_connectTo | intros c; apply frames_ret].
  - apply frames_bind; [apply frames_emit | intros _; apply frames_ret].
Qed.

Lemma frames_testRing : frames testRing.
Proof.
  unfold testRing. apply frames_bind; [apply frames_gets|].
  intros samples. apply frames_for_of. intros sample.
  unfold testRing_body. apply frames_bind; [apply frames_gets|].
  intros [vmsg|e]; [|apply frames_throw].
  destruct (loose_neq _ _); [apply frames_emit | apply frames_ret].
Qed.

(** The reconciler tick visits no key: it calls nothing and changes
    nothing, whatever the removed set holds. *)
Lemma checkRemoved_noop σ :
  checkRemoved env σ
  = {| completion := Normal tt; after := σ; observed := [] |}.
Proof. reflexivity. Qed.

(** *** The ring holds only nodes whose connection is established *)

Lemma members_live_initial : ring_members_live initial.
Proof. intros key Hk. simpl in Hk. set_solver. Qed.

Lemma members_live_frame σ σ' :
  ring_members_live σ → only_adds_clients σ σ' → ring_members_live σ'.
Proof.
  intros Hinv (Hr & Hc & _ & _ & _ & new & Hn) key Hk.
  rewrite Hr in Hk. destruct (Hinv key Hk) as (c & o & Hc1 & Ho & Hkey & Hl).
  exists c, o. rewrite Hc, Hn. repeat split; try done.
  by apply lookup_app_l_Some.
Qed.

Lemma members_live_same_registry σ σ' :
  ring σ' = ring σ → connections σ' = connections σ →
  clients σ' = clients σ →
  ring_members_live σ → ring_members_live σ'.
Proof.
  intros Hr Hc Hcl Hinv key Hk. rewrite Hr in Hk.
  destruct (Hinv key Hk) as (c & o & ? & ? & ? & ?).
  exists c, o. rewrite Hc, Hcl. done.
Qed.

Lemma clients_set_transport c t σ o :
  clients σ !! c = Some o →
  clients (set_transport c t σ)
  = <[c := {| ckey := ckey o; transport := t |}]> (clients σ).
Proof. intros Ho. unfold set_transport. simpl. by rewrite Ho. Qed.

(** The 'disconnect' listener: the node leaves the ring and the map at once. *)
Lemma members_live_disconnect σ c o :
  clients σ !! c = Some o → ring_members_live σ →
  ring_members_live (after (on_disconnect (ckey o) (set_transport c Dropped σ))).
Proof.
  intros Ho Hinv key Hk. simpl in Hk.
  apply elem_of_difference in Hk as [Hk Hne].
  rewrite elem_of_singleton in Hne.
  destruct (Hinv key Hk) as (c' & o' & Hc' & Ho' & Hkey & Hl).
  exists c', o'. simpl. rewrite lookup_delete_ne by done.
  rewrite Ho. repeat split; try done.
  rewrite list_lookup_insert_ne; [done|].
  intros ->. rewrite Ho in Ho'. congruence.
Qed.

(** The [ready()] handler: the node enters the ring and the map at once. *)
Lemma members_live_ready σ c o :
  clients σ !! c = Some o → ring_members_live σ →
  ring_members_live (after (on_ready (ckey o) c (set_transport c Live σ))).
Proof.
  intros Ho Hinv key Hk. simpl in Hk. simpl. rewrite Ho.
  destruct (decide (key = ckey o)) as [->|Hne].
  - exists c, {| ckey := ckey o; transport := Live |}.
    rewrite lookup_insert_eq. repeat split; try done.
    apply list_lookup_insert_eq. by eapply lookup_lt_Some.
  - apply elem_of_union in Hk as [Hk|Hk]; [set_solver|].
    destruct (Hinv key Hk) as (c' & o' & Hc' & Ho' & Hkey & Hl).
    exists c', o'. rewrite lookup_insert_ne by done.
    repeat split; try done.
    rewrite list_lookup_insert_ne; [done|].
    intros ->. rewrite Ho in Ho'. congruence.
Qed.

(** A rejected [ready()] concerns a client that is in no map entry. *)
Lemma members_live_ready_failed σ c o :
  clients σ !! c = Some o → transport o = Connecting →
  ring_members_live σ →
  ring_members_live (after (on_ready_failed (ckey o) (set_transport c Failed σ))).
Proof.
  intros Ho Ht Hinv key Hk. simpl in Hk. simpl. rewrite Ho.
  destruct (Hinv key Hk) as (c' & o' & Hc' & Ho' & Hkey & Hl).
  exists c', o'. repeat split; try done.
  rewrite list_lookup_insert_ne; [done|].
  intros ->. rewrite Ho in Ho'. congruence.
Qed.

Lemma populateRing_body_after obj d σ :
  ∃ σ1, ring σ1 = ring σ ∧ connections σ1 = connections σ
        ∧ removed σ1 = removed σ ∧ clients σ1 = clients σ
        ∧ primary σ1 = store_set (["test"; obj] ++ [pushId d])
                         {| msg := "testing for ref " +:+ obj; ts := now d |}
                         (primary σ)
        ∧ sampledValues σ1
          = (if double_lt (random d) SAMPLE_RATE
             then slice (- SAMPLE_COUNT)
                    (sampledValues σ
                     ++ [{| path := ["test"; obj];
                            inner := {| msg := "testing for ref " +:+ obj;
                                        ts := now d |} |}])
             else sampledValues σ)
        ∧ only_adds_clients σ1 (after (populateRing_body env obj d σ)).
Proof.
  assert (∀ ref m, frames (replicaFor env (path_string ["test"; obj]) ≫=
            λ upstream, match upstream with
              | None =>
                  logMsg ("failed to get replica for '" +:+ obj +:+ "'") [] ;;
                  mret 1
              | Some conn => emit (ReplicaSet conn ref m) ;; mret 0
              end)) as Hroute.
  { intros ref m. apply frames_bind; [apply frames_replicaFor|].
    intros [c|]; (apply frames_bind; [apply frames_emit|]);
      intros _; apply frames_ret. }
  unfold populateRing_body.
  destruct (double_lt (random d) SAMPLE_RATE) eqn:Hs;
    (eexists; split_and!; cycle -1;
     [do 2 rewrite bind_run; simpl; apply Hroute | reflexivity ..]).
Qed.

Lemma step_members_live ev σ σ' :
  ring_members_live σ → step env ev σ = Some σ' → ring_members_live σ'.
Proof.
  intros Hinv Hstep. destruct ev as [key|c|c|c| | |root|obj d| |p m]; simpl in Hstep.
  - injection Hstep as <-. eapply members_live_frame; [done|apply frames_connectTo].
  - unfold transport_event in Hstep.
    destruct (clients σ !! c) as [o|] eqn:Ho; [|done].
    case_decide; [|done]. injection Hstep as <-.
    by apply (members_live_ready σ c o).
  - unfold transport_event in Hstep.
    destruct (clients σ !! c) as [o|] eqn:Ho; [|done].
    case_decide; [|done]. injection Hstep as <-.
    by apply (members_live_ready_failed σ c o).
  - unfold transport_event in Hstep.
    destruct (clients σ !! c) as [o|] eqn:Ho; [|done].
    case_decide; [|done]. injection Hstep as <-.
    by apply (members_live_disconnect σ c o).
  - injection Hstep as <-. eapply members_live_frame; [done|apply frames_buildRing].
  - injection Hstep as <-. exact Hinv.
  - injection Hstep as <-. eapply members_live_frame; [done|apply frames_replicaFor].
  - destruct (bool_decide (obj ∈ test_objs)); [|done]. injection Hstep as <-.
    destruct (populateRing_body_after obj d σ)
      as (σ1 & Hr & Hc & _ & Hcl & _ & _ & Hf).
    eapply members_live_frame; [|exact Hf].
    by apply (members_live_same_registry σ).
  - injection Hstep as <-. eapply members_live_frame; [done|apply frames_testRing].
  - injection Hstep as <-. by apply (members_live_same_registry σ).
Qed.

Lemma run_members_live evs σ σ' :
  ring_members_live σ → run env evs σ = Some σ' → ring_members_live σ'.
Proof.
  revert σ. induction evs as [|ev evs IH]; intros σ Hinv Hrun; simpl in Hrun.
  - by injection Hrun as <-.
  - destruct (step env ev σ) as [σ1|] eqn:Hstep; [|done].
    eapply IH; [|done]. by eapply step_members_live.
Qed.

Lemma reachable_members_live σ : reachable env σ → ring_members_live σ.
Proof.
  intros [evs Hrun]. eapply run_members_live; [|done].
  apply members_live_initial.
Qed.

(** C5: in every reachable state each node identifier registered with the
    ring has a handle in the connections map whose connection is
    established, and whatever handler runs next (a connect succeeding, the
    disconnect listener, the reconciler tick, a router lookup, and the
    others) leads to a state where this holds again. *)
Theorem ring_subset_of_live_connections σ :
  reachable env σ →
  ring_members_live σ
  ∧ ∀ ev σ', step env ev σ = Some σ' → ring_members_live σ'.
Proof.
  intros Hr. pose proof (reachable_members_live σ Hr) as Hinv.
  split; [done|]. intros ev σ' Hstep. by eapply step_members_live.
Qed.

(** *** The sample buffer *)

Lemma slice_most_recent {A} (l : list A) :
  slice (- SAMPLE_COUNT) l = most_recent 100 l.
Proof.
  unfold slice, most_recent, SAMPLE_COUNT. simpl. f_equal. lia.
Qed.

Lemma length_most_recent {A} n (l : list A) :
  length (most_recent n l) = length l `min` n.
Proof. unfold most_recent. rewrite length_drop. lia. Qed.

Lemma most_recent_snoc {A} n (h : list A) x :
  0 < n → most_recent n (most_recent n h ++ [x]) = most_recent n (h ++ [x]).
Proof.
  intros Hn. unfold most_recent at 1 3.
  rewrite !length_app, length_most_recent. simpl.
  destruct (decide (length h ≤ n)) as [Hle|Hgt].
  - unfold most_recent. replace (length h - n) with 0 by lia. simpl.
    f_equal. lia.
  - unfold most_recent.
    replace (length h `min` n + 1 - n) with 1 by lia.
    rewrite drop_app_le by (rewrite length_drop; lia).
    rewrite drop_drop.
    rewrite drop_app_le by lia. do 2 f_equal. lia.
Qed.

Lemma step_sampledValues ev σ σ' :
  step env ev σ = Some σ' →
  sampledValues σ'
  = match ev with
    | EvPopulate obj d =>
        if double_lt (random d) SAMPLE_RATE
        then slice (- SAMPLE_COUNT)
               (sampledValues σ
                ++ [{| path := ["test"; obj];
                       inner := {| msg := "testing for ref " +:+ obj;
                                   ts := now d |} |}])
        else sampledValues σ
    | _ => sampledValues σ
    end.
Proof.
  intros Hstep.
  assert (∀ {A} (m : Js A), frames m → sampledValues (after (m σ)) = sampledValues σ)
    as Hframe by (intros A m Hm; apply Hm).
  destruct ev as [key|c|c|c| | |root|obj d| |p m]; simpl in Hstep.
  - injection Hstep as <-.
    exact (Hframe _ (connectTo env key) (frames_connectTo key)).
  - unfold transport_event in Hstep. destruct (clients σ !! c); [|done].
    case_decide; [|done]. by injection Hstep as <-.
  - unfold transport_event in Hstep. destruct (clients σ !! c); [|done].
    case_decide; [|done]. by injection Hstep as <-.
  - unfold transport_event in Hstep. destruct (clients σ !! c); [|done].
    case_decide; [|done]. by injection Hstep as <-.
  - injection Hstep as <-.
    exact (Hframe _ (buildRing env) frames_buildRing).
  - by injection Hstep as <-.
  - injection Hstep as <-.
    exact (Hframe _ (replicaFor env root) (frames_replicaFor root)).
  - destruct (bool_decide (obj ∈ test_objs)); [|done]. injection Hstep as <-.
    destruct (populateRing_body_after obj d σ)
      as (σ1 & _ & _ & _ & _ & _ & Hs & Hf).
    rewrite <- Hs. apply Hf.
  - injection Hstep as <-.
    exact (Hframe _ testRing frames_testRing).
  - by injection Hstep as <-.
Qed.

Lemma run_sampledValues evs σ σ' history :
  sampledValues σ = most_recent 100 history →
  run env evs σ = Some σ' →
  sampledValues σ' = most_recent 100 (history ++ pushed_samples evs).
Proof.
  revert σ history.
  induction evs as [|ev evs IH]; intros σ history Hσ Hrun; simpl in Hrun.
  - injection Hrun as <-. simpl. by rewrite app_nil_r.
  - destruct (step env ev σ) as [σ1|] eqn:Hstep; [|done].
    apply step_sampledValues in Hstep.
    destruct ev as [key|c|c|c| | |root|obj d| |p m]; simpl;
      try (apply (IH σ1); [congruence|done]).
    destruct (double_lt (random d) SAMPLE_RATE).
    + rewrite cons_middle, app_assoc.
      apply (IH σ1); [|done].
      rewrite Hstep, slice_most_recent, Hσ. apply most_recent_snoc. lia.
    + apply (IH σ1); [congruence|done].
Qed.

(** C7: after any execution the sample buffer holds at most
    [SAMPLE_COUNT] = 100 records, and it is the last 100 of the records the
    populator has sampled, in the order they were sampled (all of them while
    there are no more than 100). *)
Theorem sampledValues_bounded_fifo evs σ :
  run env evs initial = Some σ →
  length (sampledValues σ) ≤ Z.to_nat SAMPLE_COUNT
  ∧ sampledValues σ = most_recent (Z.to_nat SAMPLE_COUNT) (pushed_samples evs)
  ∧ (Z.to_nat SAMPLE_COUNT ≤ length (pushed_samples evs) →
     length (sampledValues σ) = Z.to_nat SAMPLE_COUNT)
  ∧ ∃ evicted, pushed_samples evs = evicted ++ sampledValues σ.
Proof.
  intros Hrun.
  apply (run_sampledValues evs initial σ []) in Hrun; [|done].
  simpl in Hrun. change (Z.to_nat SAMPLE_COUNT) with 100.
  rewrite Hrun, length_most_recent. split_and!; try lia.
  - done.
  - exists (take (length (pushed_samples evs) - 100) (pushed_samples evs)).
    unfold most_recent. by rewrite take_drop.
Qed.

(** *** buildRing *)

Lemma connect_calls_app os1 os2 :
  connect_calls (os1 ++ os2) = connect_calls os1 ++ connect_calls os2.
Proof. apply omap_app. Qed.

Lemma buildRing_calls σ :
  connect_calls (observed (buildRing env σ))
  = map (λ _, serverName env)
        (List.filter (λ key, negb (String.eqb key (serverName env)))
                     (Object_keys (server env))).
Proof.
  unfold buildRing. generalize (Object_keys (server env)) as keys.
  intros keys. revert σ. induction keys as [|key keys IH]; intros σ; simpl.
  - reflexivity.
  - rewrite bind_run. destruct (String.eqb key (serverName env)).
    + simpl. apply IH.
    + unfold detached. cbn [completion observed after].
      rewrite connect_calls_app, connectTo_observed, IH. reflexivity.
Qed.

(** C10: when the configuration names at least one peer besides the local
    node, [buildRing] calls [connectTo] (once per such peer), and the
    argument of every one of these calls is the local node's own identifier
    [serverName]; no other identifier is passed. *)
Theorem buildRing_connects_to_serverName σ :
  (∃ peer, peer ∈ Object_keys (server env) ∧ peer ≠ serverName env) →
  connect_calls (observed (buildRing env σ)) ≠ []
  ∧ Forall (λ key, key = serverName env)
           (connect_calls (observed (buildRing env σ)))
  ∧ length (connect_calls (observed (buildRing env σ)))
    = length (List.filter (λ key, negb (String.eqb key (serverName env)))
                          (Object_keys (server env))).
Proof.
  intros (peer & Hin & Hne). rewrite buildRing_calls. split_and!.
  - assert (peer ∈ List.filter (λ key, negb (String.eqb key (serverName env)))
                     (Object_keys (server env))) as Hp.
    { apply list_elem_of_In, filter_In. split; [by apply list_elem_of_In|].
      apply negb_true_iff, String.eqb_neq. done. }
    intros Hnil. apply fmap_nil_inv in Hnil. rewrite Hnil in Hp.
    by apply not_elem_of_nil in Hp.
  - apply Forall_fmap, Forall_true. done.
  - apply length_map.
Qed.

(** *** Reconciler *)

(** C1, at the failing input: node "a" was connected, its connection
    dropped, and the disconnect listener put it into the removed set.  The
    reconciler tick then calls [connectTo] for no node: it observes nothing
    and leaves the state, with "a" still in the removed set, untouched. *)
Theorem checkRemoved_attempts_nothing :
  let σ := state_after env_abc [EvBuildRing; EvReady 0; EvDisconnect 0] in
  "a" ∈ removed σ
  ∧ connect_calls (observed (checkRemoved env_abc σ)) = []
  ∧ after (checkRemoved env_abc σ) = σ.
Proof.
  split_and!; [|reflexivity..].
  vm_compute removed. set_solver.
Qed.

(** What the loop body does for a key it is given: it calls [connectTo];
    when the call returns a client the key leaves the removed set, and when
    it throws the key stays and the error goes to the report. *)
Lemma checkRemoved_visiting_one σ key :
  connections σ !! key = None →
  checkRemoved_visiting env [key] σ
  = if client_ctor_throws env (server_lookup key (server env)) then
      {| completion := Normal tt; after := σ;
         observed := [CallConnectTo key;
                      Report "connection failed"
                        [("key", JString key); ("err", JString "AceBaseClient")]] |}
    else
      {| completion := Normal tt;
         after := with_removed (λ s, s ∖ {[key]})
                    (with_clients
                       (λ cs, cs ++ [{| ckey := key; transport := Connecting |}])
                       σ);
         observed := [CallConnectTo key] |}.
Proof.
  intros Hk. unfold checkRemoved_visiting. cbn [checkRemoved_loop].
  rewrite !bind_run. unfold settled. cbn [completion after observed].
  destruct (client_ctor_throws env (server_lookup key (server env))) eqn:Hc.
  - by rewrite connectTo_throws.
  - by rewrite connectTo_fresh.
Qed.

(** *** Router *)

(** A call of the router, case by case. *)
Lemma replicaFor_run root σ :
  replicaFor env root σ
  = match getNode env (ring σ) root with
    | None =>
        {| completion := Normal None; after := σ;
           observed := [Report "all peer nodes marked down" [("ring", JOther)]] |}
    | Some owner =>
        match completion (connectTo env owner σ) with
        | Normal conn =>
            {| completion := Normal (Some conn);
               after := after (connectTo env owner σ);
               observed := [CallConnectTo owner] |}
        | Throw e =>
            {| completion := Throw e; after := after (connectTo env owner σ);
               observed := [CallConnectTo owner] |}
        end
    end.
Proof.
  unfold replicaFor. rewrite bind_run. unfold gets.
  cbn [completion after observed].
  destruct (getNode env (ring σ) root) as [owner|]; [|reflexivity].
  rewrite bind_run, connectTo_observed.
  destruct (completion (connectTo env owner σ)); reflexivity.
Qed.

(** Were the constructor to throw for an owner that has no handle, the
    router would throw as well. *)
Lemma replicaFor_propagates_throw root σ owner :
  getNode env (ring σ) root = Some owner →
  connections σ !! owner = None →
  client_ctor_throws env (server_lookup owner (server env)) = true →
  completion (replicaFor env root σ) = Throw "AceBaseClient".
Proof.
  intros Hg Hk Hc. rewrite replicaFor_run, Hg.
  by rewrite connectTo_throws.
Qed.


(** C8: the owner a call of [replicaFor(root)] resolves, which is the
    argument it passes to [connectTo], is a function of the ring membership
    and [root]: two calls made in states with the same membership resolve
    the same owner, and a call does not itself change the membership. *)
Theorem replicaFor_owner_deterministic σ σ' root :
  ring σ' = ring σ →
  connect_calls (observed (replicaFor env root σ'))
  = connect_calls (observed (replicaFor env root σ))
  ∧ connect_calls (observed (replicaFor env root σ))
    = option_list (getNode env (ring σ) root)
  ∧ ring (after (replicaFor env root σ)) = ring σ.
Proof.
  intros Hring.
  assert (∀ s, connect_calls (observed (replicaFor env root s))
               = option_list (getNode env (ring s) root)) as Hcalls.
  { intros s. rewrite replicaFor_run.
    destruct (getNode env (ring s) root) as [owner|]; [|done].
    by destruct (completion (connectTo env owner s)). }
  split_and!.
  - by rewrite !Hcalls, Hring.
  - apply Hcalls.
  - apply frames_replicaFor.
Qed.

(** C6: for a node identifier that has a handle in the connections map,
    [connectTo] returns that stored handle; the call constructs no client and
    leaves the ring, the map, the removed set and everything else in the
    state as they were, so calling it again gives the same. *)
Theorem connectTo_idempotent σ key existing :
  connections σ !! key = Some existing →
  connectTo env key σ
  = {| completion := Normal existing; after := σ;
       observed := [CallConnectTo key] |}
  ∧ connectTo env key (after (connectTo env key σ)) = connectTo env key σ.
Proof.
  intros Hk. rewrite !(connectTo_registered _ _ _ Hk). simpl.
  by rewrite (connectTo_registered _ _ _ Hk).
Qed.

(** *** Two attempts for one node *)

Lemma step_connectTo_fresh σ key :
  connections σ !! key = None →
  client_ctor_throws env (server_lookup key (server env)) = false →
  step env (EvConnectTo key) σ
  = Some (with_clients
            (λ cs, cs ++ [{| ckey := key; transport := Connecting |}]) σ).
Proof. intros Hk Hc. cbn [step]. by rewrite connectTo_fresh. Qed.

Lemma step_ready σ c o :
  clients σ !! c = Some o → transport o = Connecting →
  step env (EvReady c) σ
  = Some (with_connections (<[ckey o := c]>)
            (with_ring (λ r, {[ckey o]} ∪ r) (set_transport c Live σ))).
Proof.
  intros Ho Ht. cbn [step]. unfold transport_event. rewrite Ho.
  by rewrite decide_True.
Qed.

(** Two pending clients for one key: whichever order their ready handlers
    run in, both end up live and the map holds the client of the handler
    that ran second. *)
Lemma ready_twice σ key first second :
  clients σ !! first = Some {| ckey := key; transport := Connecting |} →
  clients σ !! second = Some {| ckey := key; transport := Connecting |} →
  first ≠ second →
  ∃ σ',
    run env [EvReady first; EvReady second] σ = Some σ'
    ∧ clients σ'
      = <[second := {| ckey := key; transport := Live |}]>
          (<[first := {| ckey := key; transport := Live |}]> (clients σ))
    ∧ connections σ' = <[key := second]> (connections σ)
    ∧ ring σ' = {[key]} ∪ ring σ.
Proof.
  intros Hfirst Hsecond Hne. cbn [run].
  rewrite (step_ready _ _ _ Hfirst) by done. cbn [ckey].
  rewrite (step_ready _ second {| ckey := key; transport := Connecting |});
    [|simpl|done].
  2:{ rewrite Hfirst. by rewrite list_lookup_insert_ne. }
  eexists. split; [reflexivity|]. simpl. rewrite Hfirst. simpl.
  assert (<[first := {| ckey := key; transport := Live |}]> (clients σ)
            !! second
          = Some {| ckey := key; transport := Connecting |}) as ->.
  { rewrite list_lookup_insert_ne by done. exact Hsecond. }
  split_and!.
  - done.
  - apply insert_insert_eq.
  - by rewrite (assoc_L (∪)), (idemp_L (∪)).
Qed.

(** C9, as amended: [connectTo] has no gate for an attempt in flight.  For
    a node identifier without a handle in the connections map, two
    invocations in a row construct two clients; when both become ready, in
    either order, both connections are live, the node is in the ring, and
    the map registers the client whose ready handler ran last. *)
Theorem connectTo_twice_in_flight σ key first second :
  connections σ !! key = None →
  client_ctor_throws env (server_lookup key (server env)) = false →
  (first = length (clients σ) ∧ second = S (length (clients σ)))
  ∨ (first = S (length (clients σ)) ∧ second = length (clients σ)) →
  ∃ σ',
    run env [EvConnectTo key; EvConnectTo key; EvReady first; EvReady second] σ
    = Some σ'
    ∧ clients σ'
      = clients σ ++ [{| ckey := key; transport := Live |};
                      {| ckey := key; transport := Live |}]
    ∧ connections σ' = <[key := second]> (connections σ)
    ∧ ring σ' = {[key]} ∪ ring σ.
Proof.
  intros Hk Hc Horder.
  set (o := {| ckey := key; transport := Connecting |}).
  set (l := {| ckey := key; transport := Live |}).
  set (σ2 := with_clients (λ cs, cs ++ [o])
               (with_clients (λ cs, cs ++ [o]) σ)).
  assert (run env [EvConnectTo key; EvConnectTo key; EvReady first;
                   EvReady second] σ
          = run env [EvReady first; EvReady second] σ2) as ->.
  { cbn [run]. rewrite step_connectTo_fresh by done.
    by rewrite step_connectTo_fresh by done. }
  assert (clients σ2 = clients σ ++ [o; o]) as Hcl.
  { simpl. by rewrite <- app_assoc. }
  assert (clients σ2 !! length (clients σ) = Some o) as H0.
  { rewrite Hcl. by apply list_lookup_middle. }
  assert (clients σ2 !! S (length (clients σ)) = Some o) as H1.
  { rewrite Hcl. rewrite (lookup_app_r _ _ _) by lia.
    by replace (S (length (clients σ)) - length (clients σ)) with 1 by lia. }
  assert (∀ a b, a ≠ b →
            (a = length (clients σ) ∧ b = S (length (clients σ)))
            ∨ (a = S (length (clients σ)) ∧ b = length (clients σ)) →
            <[b := l]> (<[a := l]> (clients σ2)) = clients σ ++ [l; l])
    as Hboth.
  { intros a b _ [[-> ->]|[-> ->]]; rewrite Hcl.
    - rewrite insert_app_r_alt by lia. rewrite Nat.sub_diag. simpl.
      rewrite insert_app_r_alt by lia.
      by replace (S (length (clients σ)) - length (clients σ)) with 1 by lia.
    - rewrite insert_app_r_alt by lia.
      replace (S (length (clients σ)) - length (clients σ)) with 1 by lia.
      simpl. rewrite insert_app_r_alt by lia. by rewrite Nat.sub_diag. }
  assert (first ≠ second) as Hne by (destruct Horder as [[-> ->]|[-> ->]]; lia).
  destruct (ready_twice σ2 key first second) as (σ' & Hrun & Hcl' & Hconn & Hring).
  - destruct Horder as [[-> _]|[-> _]]; done.
  - destruct Horder as [[_ ->]|[_ ->]]; done.
  - done.
  - exists σ'. split; [done|]. split_and!; [|done|done].
    rewrite Hcl'. by apply Hboth.
Qed.

End CoordinatorFacts.

(** ** Concrete executions *)

Section Executions.
Import Coordinator.

(** *** Sampler *)

(** C4, at the failing input: the populator writes the record for "g"
    (under the pushed child "k0") and retains it as a sample; nothing else
    touches the store; the sampler then re-reads the retained path
    "/test/g", finds no [msg] there, and reports a mismatch. *)
Theorem testRing_reports_unchanged_record :
  let σ := state_after env_abc [EvPopulate "g" draw_g] in
  sampledValues σ
  = [{| path := ["test"; "g"];
        inner := {| msg := "testing for ref g"; ts := 1000 |} |}]
  ∧ map_to_list (primary σ)
    = [(["test"; "g"; "k0"], {| msg := "testing for ref g"; ts := 1000 |})]
  ∧ testRing σ
    = {| completion := Normal tt; after := σ;
         observed :=
           [Report "mismatched sample value for '/test/g"
              [("path", JString "/test/g");
               ("imsg", JString "testing for ref g");
               ("vmsg", JUndefined)]] |}.
Proof. split_and!; vm_compute; reflexivity. Qed.

(** When another party overwrites "/test/g" between the write and the
    re-read, the report carries the expected and the observed [msg]. *)
Lemma testRing_reports_external_change :
  let σ := state_after env_abc
             [EvPopulate "g" draw_g;
              EvExternalSet ["test"; "g"] {| msg := "y"; ts := 2000 |}] in
  observed (testRing σ)
  = [Report "mismatched sample value for '/test/g"
       [("path", JString "/test/g");
        ("imsg", JString "testing for ref g");
        ("vmsg", JString "y")]].
Proof. vm_compute. reflexivity. Qed.

(** *** A throwing constructor *)


(** *** Two live connections *)

Lemma state_after_reachable env evs :
  is_Some (run env evs initial) → reachable env (state_after env evs).
Proof.
  intros [σ Hσ]. exists evs. unfold state_after. by rewrite Hσ.
Qed.

(** C9, as stated, fails: with three configured nodes [buildRing] invokes
    [connectTo] twice in a row for the same identifier, both attempts
    succeed, and the node then has two live connections. *)
Lemma two_live_connections_for_one_node :
  ¬ (∀ env σ, reachable env σ → one_live_per_node σ).
Proof.
  intros H.
  assert (reachable env_abc
            (state_after env_abc [EvBuildRing; EvReady 0; EvReady 1])) as Hr.
  { apply state_after_reachable. vm_compute. eauto. }
  specialize (H _ _ Hr 0 1 {| ckey := "a"; transport := Live |}
                {| ckey := "a"; transport := Live |}
                eq_refl eq_refl eq_refl eq_refl eq_refl).
  discriminate H.
Qed.

End Executions.

(** ** The theorems at concrete inputs *)

Section Witnesses.
Import Coordinator.

Lemma state_connected_reachable : reachable env_abc state_connected.
Proof. apply state_after_reachable. vm_compute. eauto. Qed.

Lemma connectTo_idempotent_witness :
  connections state_connected !! "a" = Some 0
  ∧ connectTo env_abc "a" state_connected
    = {| completion := Normal 0; after := state_connected;
         observed := [CallConnectTo "a"] |}.
Proof.
  split; [reflexivity|].
  apply (connectTo_idempotent env_abc state_connected "a" 0). reflexivity.
Defined.

Lemma ring_subset_of_live_connections_witness :
  reachable env_abc state_connected
  ∧ ring_members_live state_connected.
Proof.
  split; [apply state_connected_reachable|].
  apply (ring_subset_of_live_connections env_abc state_connected).
  apply state_connected_reachable.
Defined.

Lemma replicaFor_owner_deterministic_witness :
  ring (state_after env_abc [EvBuildRing; EvReady 0; EvReplicaFor "/test/g"])
  = ring state_connected
  ∧ connect_calls
      (observed
         (replicaFor env_abc "/test/g"
            (state_after env_abc
               [EvBuildRing; EvReady 0; EvReplicaFor "/test/g"])))
    = connect_calls (observed (replicaFor env_abc "/test/g" state_connected)).
Proof.
  split; [reflexivity|].
  apply (replicaFor_owner_deterministic env_abc state_connected
           (state_after env_abc
              [EvBuildRing; EvReady 0; EvReplicaFor "/test/g"]) "/test/g").
  reflexivity.
Defined.

Lemma sampledValues_bounded_fifo_witness :
  run env_abc [EvPopulate "g" draw_g] initial
  = Some (state_after env_abc [EvPopulate "g" draw_g])
  ∧ length (sampledValues (state_after env_abc [EvPopulate "g" draw_g])) ≤ 100.
Proof.
  split; [reflexivity|].
  apply (sampledValues_bounded_fifo env_abc [EvPopulate "g" draw_g]).
  reflexivity.
Defined.

Lemma connectTo_twice_in_flight_witness :
  connections initial !! "b" = None
  ∧ client_ctor_throws env_abc (server_lookup "b" (server env_abc)) = false
  ∧ ∃ σ',
      run env_abc [EvConnectTo "b"; EvConnectTo "b"; EvReady 1; EvReady 0]
          initial = Some σ'
      ∧ clients σ' = [{| ckey := "b"; transport := Live |};
                      {| ckey := "b"; transport := Live |}]
      ∧ connections σ' = <[ "b" := 0 ]> ∅
      ∧ ring σ' = {[ "b" ]} ∪ ∅.
Proof.
  split; [reflexivity|]. split; [reflexivity|].
  apply (connectTo_twice_in_flight env_abc initial "b" 1 0);
    [reflexivity|reflexivity|].
  right. split; reflexivity.
Defined.

Lemma buildRing_connects_to_serverName_witness :
  ("b" ∈ Object_keys (server env_abc) ∧ "b" ≠ serverName env_abc)
  ∧ connect_calls (observed (buildRing env_abc initial)) ≠ []
  ∧ Forall (λ key, key = "a")
           (connect_calls (observed (buildRing env_abc initial))).
Proof.
  assert ("b" ∈ Object_keys (server env_abc) ∧ "b" ≠ serverName env_abc)
    as Hpeer.
  { split; [|discriminate]. simpl. set_solver. }
  split; [exact Hpeer|].
  destruct (buildRing_connects_to_serverName env_abc initial)
    as (Hne & Hall & _); [by exists "b"|].
  split; [exact Hne | exact Hall].
Defined.

End Witnesses.

(** * Further properties of the code *)

(** ** Start-up, all cases *)

Section StartupCases.
Import Startup.

(** X1: the start-up checks of server.ts exit, with code 1, exactly when
    [--name] is unset or DB_ADMIN_PASSWORD holds the nine-letter string
    "undefined"; in every other case, a node name that is not in
    [config.server] included, the script proceeds under the name and the
    credential it was given. *)
Theorem startup_exits_iff l :
  (exits_nonzero (startup l)
   ↔ argv_name l = None ∨ env_DB_ADMIN_PASSWORD l = Some "undefined")
  ∧ (∀ code text, startup l = Exit code text → code = 1%Z)
  ∧ (∀ name pw sc, startup l = Proceed name pw sc →
       argv_name l = Some name ∧ pw = env_DB_ADMIN_PASSWORD l)
  ∧ (∀ name, argv_name l = Some name →
       env_DB_ADMIN_PASSWORD l ≠ Some "undefined" →
       ∃ sc, startup l = Proceed name (env_DB_ADMIN_PASSWORD l) sc).
Proof.
  unfold startup.
  destruct (is_string_undefined (env_DB_ADMIN_PASSWORD l)) eqn:Hpw.
  - apply startup_password_check in Hpw. split_and!.
    + split; [auto|]. intros _. simpl. lia.
    + intros code text [= <- _]. done.
    + intros name pw sc [=].
    + intros name _ Hne. done.
  - assert (env_DB_ADMIN_PASSWORD l ≠ Some "undefined") as Hne.
    { intros H. apply startup_password_check in H. congruence. }
    destruct (argv_name l) as [name|]; simpl.
    + split_and!.
      * split; [done|]. intros [?|?]; done.
      * intros code text [=].
      * intros name' pw sc [= <- <- <-]. done.
      * intros name' [= <-] _. eauto.
    + split_and!.
      * split; [auto|]. intros _. lia.
      * intros code text [= <- _]. done.
      * intros name pw sc [=].
      * intros name [=].
Qed.

End StartupCases.

(** ** The registry over whole executions *)

Section RegistryMore.
Import Coordinator.
Context (env : Env).

(** What a handler run can do to the registry: nothing but construct
    clients, or one of the three transport handlers. *)
Lemma step_cases ev σ σ' :
  step env ev σ = Some σ' →
  (∃ σ1, ring σ1 = ring σ ∧ connections σ1 = connections σ
         ∧ removed σ1 = removed σ ∧ clients σ1 = clients σ
         ∧ only_adds_clients σ1 σ')
  ∨ (∃ c o, ev = EvReady c ∧ clients σ !! c = Some o
            ∧ transport o = Connecting
            ∧ σ' = after (on_ready (ckey o) c (set_transport c Live σ)))
  ∨ (∃ c o, ev = EvReadyFailed c ∧ clients σ !! c = Some o
            ∧ transport o = Connecting
            ∧ σ' = set_transport c Failed σ)
  ∨ (∃ c o, ev = EvDisconnect c ∧ clients σ !! c = Some o
            ∧ transport o = Live
            ∧ σ' = after (on_disconnect (ckey o) (set_transport c Dropped σ))).
Proof.
  intros Hstep.
  assert (∀ {A} (m : Js A), frames m → step env ev σ = Some (after (m σ)) →
            ∃ σ1, ring σ1 = ring σ ∧ connections σ1 = connections σ
                  ∧ removed σ1 = removed σ ∧ clients σ1 = clients σ
                  ∧ only_adds_clients σ1 σ') as Hframe.
  { intros A m Hm Heq. exists σ. split_and!; try done.
    rewrite Hstep in Heq. injection Heq as ->. apply Hm. }
  destruct ev as [key|c|c|c| | |root|obj d| |p m].
  - left. apply (Hframe _ (connectTo env key) (frames_connectTo env key)).
    reflexivity.
  - right. left. cbn [step] in Hstep. unfold transport_event in Hstep.
    destruct (clients σ !! c) as [o|] eqn:Ho; [|done].
    case_decide; [|done]. injection Hstep as <-. by exists c, o.
  - right. right. left. cbn [step] in Hstep. unfold transport_event in Hstep.
    destruct (clients σ !! c) as [o|] eqn:Ho; [|done].
    case_decide; [|done]. injection Hstep as <-. by exists c, o.
  - right. right. right. cbn [step] in Hstep. unfold transport_event in Hstep.
    destruct (clients σ !! c) as [o|] eqn:Ho; [|done].
    case_decide; [|done]. injection Hstep as <-. by exists c, o.
  - left. apply (Hframe _ (buildRing env) (frames_buildRing env)). reflexivity.
  - left. exists σ. cbn [step] in Hstep. injection Hstep as <-.
    split_and!; try done. apply only_adds_clients_refl.
  - left. apply (Hframe _ (replicaFor env root) (frames_replicaFor env root)).
    reflexivity.
  - left. cbn [step] in Hstep.
    destruct (bool_decide (obj ∈ test_objs)); [|done]. injection Hstep as <-.
    destruct (populateRing_body_after env obj d σ)
      as (σ1 & ? & ? & ? & ? & _ & _ & Hf).
    by exists σ1.
  - left. apply (Hframe _ testRing frames_testRing). reflexivity.
  - left. cbn [step] in Hstep. injection Hstep as <-.
    exists (with_primary (store_set p m) σ). split_and!; try done.
    apply only_adds_clients_refl.
Qed.

Lemma run_invariant (P : State → Prop) :
  (∀ ev σ σ', P σ → step env ev σ = Some σ' → P σ') →
  ∀ evs σ σ', P σ → run env evs σ = Some σ' → P σ'.
Proof.
  intros Hstep evs. induction evs as [|ev evs IH]; intros σ σ' HP Hrun;
    cbn [run] in Hrun.
  - by injection Hrun as <-.
  - destruct (step env ev σ) as [σ1|] eqn:Hs; [|done].
    eapply IH; [|done]. by eapply Hstep.
Qed.

Lemma after_on_ready key c σ :
  after (on_ready key c σ)
  = with_connections (<[key := c]>) (with_ring (λ r, {[key]} ∪ r) σ).
Proof. reflexivity. Qed.

Lemma after_on_disconnect key σ :
  after (on_disconnect key σ)
  = with_removed (λ s, {[key]} ∪ s)
      (with_connections (delete key) (with_ring (λ r, r ∖ {[key]}) σ)).
Proof. reflexivity. Qed.

Lemma step_ring_is_registry ev σ σ' :
  ring_is_registry σ → step env ev σ = Some σ' → ring_is_registry σ'.
Proof.
  unfold ring_is_registry. intros Hinv Hstep.
  destruct (step_cases ev σ σ' Hstep)
    as [(σ1 & Hr & Hc & _ & _ & Hr' & Hc' & _)
       |[(c & o & _ & Ho & _ & ->)
        |[(c & o & _ & Ho & _ & ->)|(c & o & _ & Ho & _ & ->)]]].
  - congruence.
  - rewrite after_on_ready. simpl. rewrite dom_insert_L. by rewrite Hinv.
  - done.
  - rewrite after_on_disconnect. simpl. rewrite dom_delete_L. by rewrite Hinv.
Qed.

Lemma reachable_ring_is_registry σ : reachable env σ → ring_is_registry σ.
Proof.
  intros [evs Hrun].
  apply (run_invariant ring_is_registry step_ring_is_registry evs initial σ);
    [|done].
  unfold ring_is_registry. simpl. by rewrite dom_empty_L.
Qed.

(** X2: in every reachable state the ring and the connections map hold
    exactly the same node identifiers: the two are only ever changed
    together, by the ready handler and by the disconnect listener. *)
Theorem ring_equals_registered_nodes σ :
  reachable env σ → ring σ = dom (connections σ).
Proof. apply reachable_ring_is_registry. Qed.

Lemma step_removed_grows ev σ σ' :
  step env ev σ = Some σ' → removed σ ⊆ removed σ'.
Proof.
  intros Hstep.
  destruct (step_cases ev σ σ' Hstep)
    as [(σ1 & _ & _ & Hd & _ & _ & _ & Hd' & _)
       |[(c & o & _ & Ho & _ & ->)
        |[(c & o & _ & Ho & _ & ->)|(c & o & _ & Ho & _ & ->)]]].
  - by rewrite Hd', Hd.
  - done.
  - done.
  - rewrite after_on_disconnect. simpl. apply union_subseteq_r.
Qed.

(** X3: no execution ever takes a node out of the removed set.  The one
    place that deletes from it is the reaction in [checkRemoved], whose loop
    visits no key. *)
Theorem removed_never_shrinks evs σ σ' :
  run env evs σ = Some σ' → removed σ ⊆ removed σ'.
Proof.
  revert σ. induction evs as [|ev evs IH]; intros σ Hrun; cbn [run] in Hrun.
  - by injection Hrun as <-.
  - destruct (step env ev σ) as [σ1|] eqn:Hs; [|done].
    etrans; [by eapply step_removed_grows | by apply IH].
Qed.

Lemma step_removed_were_dropped ev σ σ' :
  removed_were_dropped σ → step env ev σ = Some σ' → removed_were_dropped σ'.
Proof.
  intros Hinv Hstep.
  assert (∀ c t o key, clients σ !! c = Some o → transport o ≠ Dropped →
            key ∈ removed σ →
            ∃ c' o', clients (set_transport c t σ) !! c' = Some o'
                     ∧ ckey o' = key ∧ transport o' = Dropped) as Hkeep.
  { intros c t o key Ho Ht Hk.
    destruct (Hinv key Hk) as (c' & o' & Ho' & Hkey & Hd).
    exists c', o'. rewrite (clients_set_transport _ _ _ _ Ho).
    split_and!; try done. rewrite list_lookup_insert_ne; [done|].
    intros ->. pose proof (eq_trans (eq_sym Ho) Ho') as [= ->]. done. }
  destruct (step_cases ev σ σ' Hstep)
    as [(σ1 & _ & _ & Hd & Hcl & _ & _ & Hd' & _ & _ & new & Hnew)
       |[(c & o & _ & Ho & Ht & ->)
        |[(c & o & _ & Ho & Ht & ->)|(c & o & _ & Ho & Ht & ->)]]].
  - intros key Hk. rewrite Hd', Hd in Hk.
    destruct (Hinv key Hk) as (c & o & Ho & Hkey & Hdr).
    exists c, o. rewrite Hnew, Hcl. split_and!; try done.
    by apply lookup_app_l_Some.
  - intros key Hk. rewrite after_on_ready in *. simpl in *.
    apply (Hkeep c Live o); [done| congruence |done].
  - intros key Hk. apply (Hkeep c Failed o); [done| congruence |done].
  - intros key Hk. rewrite after_on_disconnect in *. simpl in Hk.
    destruct (decide (key = ckey o)) as [->|Hne].
    + exists c, {| ckey := ckey o; transport := Dropped |}. simpl.
      rewrite Ho. split_and!; try done.
      apply list_lookup_insert_eq. by eapply lookup_lt_Some.
    + apply (Hkeep c Dropped o); [done| congruence |].
      apply elem_of_union in Hk as [Hk|Hk]; [|done].
      by apply elem_of_singleton in Hk.
Qed.

Lemma reachable_removed_were_dropped σ :
  reachable env σ → removed_were_dropped σ.
Proof.
  intros [evs Hrun].
  apply (run_invariant _ step_removed_were_dropped evs initial σ); [|done].
  intros key Hk. simpl in Hk. by apply not_elem_of_empty in Hk.
Qed.

(** X4: a node is in the removed set only if a client made for it had its
    connection established and then dropped. *)
Theorem removed_only_by_disconnect σ :
  reachable env σ →
  ∀ key, key ∈ removed σ →
    ∃ c o, clients σ !! c = Some o ∧ ckey o = key ∧ transport o = Dropped.
Proof. apply reachable_removed_were_dropped. Qed.

(** *** The router and the populator in a consistent registry *)

Lemma replicaFor_in_registry σ root :
  ring_members_live σ →
  (∀ owner, getNode env (ring σ) root = Some owner → owner ∈ ring σ) →
  replicaFor env root σ
  = {| completion :=
         Normal (getNode env (ring σ) root ≫= λ owner, connections σ !! owner);
       after := σ;
       observed :=
         match getNode env (ring σ) root with
         | None => [Report "all peer nodes marked down" [("ring", JOther)]]
         | Some owner => [CallConnectTo owner]
         end |}.
Proof.
  intros Hinv Hmem. rewrite replicaFor_run.
  destruct (getNode env (ring σ) root) as [owner|] eqn:Hg; [|reflexivity].
  destruct (Hinv owner (Hmem owner eq_refl)) as (c & o & Hc & _).
  rewrite (connectTo_registered _ _ _ _ Hc). simpl. by rewrite Hc.
Qed.

(** X5: in a reachable state, with a ring that answers with one of its
    members, a router lookup never throws and never constructs a client: it
    leaves the whole state as it is and returns the handle the connections
    map holds for the owner ([undefined] when there is no owner). *)
Theorem replicaFor_reads_only σ root :
  reachable env σ →
  (∀ owner, getNode env (ring σ) root = Some owner → owner ∈ ring σ) →
  after (replicaFor env root σ) = σ
  ∧ completion (replicaFor env root σ)
    = Normal (getNode env (ring σ) root ≫= λ owner, connections σ !! owner).
Proof.
  intros Hr Hmem.
  rewrite (replicaFor_in_registry σ root (reachable_members_live env σ Hr) Hmem).
  done.
Qed.

Lemma ran_eta {A} (r : Ran A) :
  {| completion := completion r; after := after r; observed := observed r |}
  = r.
Proof. by destruct r. Qed.

Lemma ret_bind {A B} (a : A) (f : A → Js B) σ : (mret a ≫= f) σ = f a σ.
Proof. rewrite bind_run. simpl. apply ran_eta. Qed.

Lemma modify_bind {B} g (k : Js B) σ : (modify g ;; k) σ = k (g σ).
Proof. rewrite bind_run. simpl. apply ran_eta. Qed.

Lemma bind_assoc {A B C} (m : Js A) (f : A → Js B) (g : B → Js C) σ :
  ((m ≫= f) ≫= g) σ = (m ≫= λ a, f a ≫= g) σ.
Proof.
  rewrite !bind_run. destruct (completion (m σ)) as [a|e]; simpl; [|done].
  rewrite bind_run.
  destruct (completion (f a (after (m σ)))); simpl; by rewrite ?app_assoc.
Qed.

Lemma route_run root obj ref m s :
  (replicaFor env root ≫= λ upstream,
     match upstream with
     | None =>
         logMsg ("failed to get replica for '" +:+ obj +:+ "'") [] ;; mret 1
     | Some conn => emit (ReplicaSet conn ref m) ;; mret 0
     end) s
  = let r := replicaFor env root s in
    {| completion :=
         match completion r with
         | Normal None => Normal 1
         | Normal (Some _) => Normal 0
         | Throw e => Throw e
         end;
       after := after r;
       observed :=
         observed r ++
         match completion r with
         | Normal None =>
             [Report ("failed to get replica for '" +:+ obj +:+ "'") []]
         | Normal (Some conn) => [ReplicaSet conn ref m]
         | Throw _ => []
         end |}.
Proof.
  rewrite bind_run.
  destruct (replicaFor env root s) as [[[c|]|e] σ2 os]; cbn;
    by rewrite ?app_nil_r.
Qed.

Lemma populateRing_body_run obj d σ :
  populateRing_body env obj d σ
  = let r := replicaFor env (path_string ["test"; obj])
               (written_and_sampled obj d σ) in
    {| completion :=
         match completion r with
         | Normal None => Normal 1
         | Normal (Some _) => Normal 0
         | Throw e => Throw e
         end;
       after := after r;
       observed :=
         observed r ++
         match completion r with
         | Normal None =>
             [Report ("failed to get replica for '" +:+ obj +:+ "'") []]
         | Normal (Some conn) =>
             [ReplicaSet conn ["test"; obj; pushId d] (test_record obj (now d))]
         | Throw _ => []
         end |}.
Proof.
  unfold populateRing_body, written_and_sampled, test_record.
  rewrite modify_bind.
  destruct (double_lt (random d) SAMPLE_RATE).
  - rewrite bind_assoc, modify_bind, modify_bind. apply route_run.
  - rewrite ret_bind. apply route_run.
Qed.

End RegistryMore.

(** ** The populator and the sampler *)

Section PopulatorMore.
Import Coordinator.
Context (env : Env).

(** *** The store *)

Lemma below_spec (p q : Path) : below p q = true ↔ p `prefix_of` q ∧ p ≠ q.
Proof.
  unfold below. rewrite andb_true_iff, negb_true_iff.
  rewrite bool_decide_eq_true, bool_decide_eq_false. done.
Qed.

Lemma lookup_store_set_eq (p : Path) (m : Msg) (s : gmap Path Msg) :
  store_set p m s !! p = Some m.
Proof. unfold store_set. apply lookup_insert_eq. Qed.

Lemma lookup_store_set_other (p q : Path) (m : Msg) (s : gmap Path Msg) :
  ¬ p `prefix_of` q → store_set p m s !! q = s !! q.
Proof.
  intros Hpre. unfold store_set.
  rewrite lookup_insert_ne by (intros ->; by apply Hpre).
  destruct (s !! q) as [x|] eqn:Hq.
  - apply map_lookup_filter_Some. split; [done|]. simpl.
    apply Is_true_true, negb_true_iff.
    destruct (below p q) eqn:Hb; [|done].
    apply below_spec in Hb as [? _]. done.
  - apply map_lookup_filter_None. by left.
Qed.

Lemma lookup_store_set_below (p q : Path) (m : Msg) (s : gmap Path Msg) :
  p `prefix_of` q → p ≠ q → store_set p m s !! q = None.
Proof.
  intros Hpre Hne. unfold store_set. rewrite lookup_insert_ne by done.
  apply map_lookup_filter_None. right. intros x _. simpl.
  assert (below p q = true) as -> by (by apply below_spec). simpl. tauto.
Qed.

(** *** One iteration of the populator's loop *)

Lemma written_and_sampled_registry obj d σ :
  ring (written_and_sampled obj d σ) = ring σ
  ∧ connections (written_and_sampled obj d σ) = connections σ
  ∧ removed (written_and_sampled obj d σ) = removed σ
  ∧ clients (written_and_sampled obj d σ) = clients σ
  ∧ primary (written_and_sampled obj d σ)
    = store_set ["test"; obj; pushId d] (test_record obj (now d)) (primary σ).
Proof.
  unfold written_and_sampled.
  by destruct (double_lt (random d) SAMPLE_RATE).
Qed.

(** X6: an iteration whose path has no owner in the ring still writes the
    record to the primary store and still draws the sample; it then reports
    the two lines, issues no write to any replica, and counts one failure. *)
Theorem populateRing_body_without_owner obj d σ :
  getNode env (ring σ) (path_string ["test"; obj]) = None →
  populateRing_body env obj d σ
  = {| completion := Normal 1;
       after := written_and_sampled obj d σ;
       observed :=
         [Report "all peer nodes marked down" [("ring", JOther)];
          Report ("failed to get replica for '" +:+ obj +:+ "'") []] |}.
Proof.
  intros Hg. rewrite populateRing_body_run. cbv zeta.
  rewrite replicaFor_run.
  destruct (written_and_sampled_registry obj d σ) as (-> & _).
  by rewrite Hg.
Qed.

(** X7: an iteration whose path has an owner with a handle in the
    connections map counts no failure and issues one write to that handle,
    at the very path and with the very record it wrote to the primary
    store; no client is constructed. *)
Theorem populateRing_body_with_owner obj d σ owner conn :
  getNode env (ring σ) (path_string ["test"; obj]) = Some owner →
  connections σ !! owner = Some conn →
  populateRing_body env obj d σ
  = {| completion := Normal 0;
       after := written_and_sampled obj d σ;
       observed :=
         [CallConnectTo owner;
          ReplicaSet conn ["test"; obj; pushId d] (test_record obj (now d))] |}
  ∧ primary (written_and_sampled obj d σ) !! ["test"; obj; pushId d]
    = Some (test_record obj (now d)).
Proof.
  intros Hg Hc. split.
  - rewrite populateRing_body_run. cbv zeta. rewrite replicaFor_run.
    destruct (written_and_sampled_registry obj d σ) as (-> & Hc' & _).
    rewrite Hg. rewrite <- Hc' in Hc.
    by rewrite (connectTo_registered _ _ _ _ Hc).
  - destruct (written_and_sampled_registry obj d σ) as (_ & _ & _ & _ & ->).
    apply lookup_store_set_eq.
Qed.

(** X8: whatever the router does, even if it throws, an iteration leaves
    its record in the primary store under the pushed child of
    [/test/<obj>], and leaves every record that is not at or below that
    path as it was. *)
Theorem populateRing_body_writes_primary obj d σ :
  primary (after (populateRing_body env obj d σ)) !! ["test"; obj; pushId d]
  = Some (test_record obj (now d))
  ∧ ∀ q, ¬ ["test"; obj; pushId d] `prefix_of` q →
         primary (after (populateRing_body env obj d σ)) !! q = primary σ !! q.
Proof.
  rewrite populateRing_body_run. cbv zeta. cbn [after].
  destruct (frames_replicaFor env (path_string ["test"; obj])
              (written_and_sampled obj d σ)) as (_ & _ & _ & _ & -> & _).
  destruct (written_and_sampled_registry obj d σ) as (_ & _ & _ & _ & ->).
  split; [apply lookup_store_set_eq|].
  intros q Hq. by apply lookup_store_set_other.
Qed.

End PopulatorMore.

(** ** The sampler *)

Section SamplerMore.
Import Coordinator.
Context (env : Env).

Lemma testRing_body_run sample σ :
  testRing_body sample σ
  = match read_msg (path sample) (primary σ) with
    | Throw err => {| completion := Throw err; after := σ; observed := [] |}
    | Normal vmsg =>
        {| completion := Normal tt; after := σ;
           observed :=
             if loose_neq (msg (inner sample)) vmsg
             then [mismatch_report sample (Field_val vmsg)] else [] |}
    end.
Proof.
  unfold testRing_body. rewrite bind_run. unfold gets.
  cbn [completion after observed].
  destruct (read_msg (path sample) (primary σ)) as [vmsg|err]; [|done].
  by destruct (loose_neq (msg (inner sample)) vmsg).
Qed.

Lemma testRing_body_after sample σ : after (testRing_body sample σ) = σ.
Proof.
  rewrite testRing_body_run.
  by destruct (read_msg (path sample) (primary σ)).
Qed.

Lemma for_of_testRing_after samples σ :
  after (for_of samples testRing_body σ) = σ.
Proof.
  induction samples as [|sample samples IH]; [done|].
  cbn [for_of]. rewrite bind_run.
  pose proof (testRing_body_after sample σ) as Hb.
  destruct (completion (testRing_body sample σ)); cbn [after]; [|done].
  by rewrite Hb.
Qed.

Lemma testRing_after σ : after (testRing σ) = σ.
Proof.
  unfold testRing. rewrite bind_run. unfold gets.
  cbn [completion after observed]. apply for_of_testRing_after.
Qed.

(** X9: the sampler is an observer: a tick of [testRing] leaves the ring,
    the registry, the sample buffer and the store exactly as they were,
    also when it ends in an exception, and it calls [connectTo] for no
    node. *)
Theorem testRing_changes_nothing σ :
  after (testRing σ) = σ ∧ connect_calls (observed (testRing σ)) = [].
Proof.
  split; [apply testRing_after|].
  unfold testRing. rewrite bind_run. unfold gets.
  cbn [completion after observed app].
  induction (sampledValues σ) as [|sample samples IH]; [done|].
  cbn [for_of]. rewrite bind_run, testRing_body_after, testRing_body_run.
  destruct (read_msg (path sample) (primary σ)) as [vmsg|err];
    cbn [completion after observed]; [|done].
  rewrite connect_calls_app, IH.
  by destruct (loose_neq (msg (inner sample)) vmsg).
Qed.

(** X10: for a sample whose path holds a record, the sampler compares the
    [msg] fields only: it is silent when they are equal, whatever the
    timestamps, and otherwise writes one report line that carries the
    expected and the stored [msg]. *)
Theorem testRing_body_compares_msg sample σ stored :
  primary σ !! path sample = Some stored →
  testRing_body sample σ
  = {| completion := Normal tt; after := σ;
       observed :=
         if String.eqb (msg (inner sample)) (msg stored) then []
         else [mismatch_report sample (JString (msg stored))] |}.
Proof.
  intros Hs. rewrite testRing_body_run. unfold read_msg. rewrite Hs.
  simpl. by destruct (String.eqb (msg (inner sample)) (msg stored)).
Qed.

Lemma for_of_testRing_app before rest σ :
  for_of (before ++ rest) testRing_body σ
  = let r := for_of before testRing_body σ in
    match completion r with
    | Normal _ =>
        {| completion := completion (for_of rest testRing_body σ);
           after := σ;
           observed := observed r ++ observed (for_of rest testRing_body σ) |}
    | Throw e => {| completion := Throw e; after := σ; observed := observed r |}
    end.
Proof.
  cbv zeta. induction before as [|sample before IH].
  - simpl. rewrite <- (for_of_testRing_after rest σ) at 3. by rewrite ran_eta.
  - cbn [for_of app]. rewrite !bind_run.
    rewrite testRing_body_after.
    destruct (completion (testRing_body sample σ)) as [[]|e];
      cbn [completion after observed]; [|done].
    rewrite IH. destruct (completion (for_of before testRing_body σ));
      cbn [completion after observed]; by rewrite ?app_assoc.
Qed.

(** X11: [testRing] has no handler for a failing read.  When reading the
    [msg] of some sample throws, the tick ends with that exception: the
    samples before it have been checked, the ones after it are not. *)
Theorem testRing_stops_at_failing_read σ before sample rest err :
  sampledValues σ = before ++ sample :: rest →
  completion (for_of before testRing_body σ) = Normal tt →
  read_msg (path sample) (primary σ) = Throw err →
  completion (testRing σ) = Throw err
  ∧ observed (testRing σ) = observed (for_of before testRing_body σ).
Proof.
  intros Hs Hb Hread. unfold testRing. rewrite bind_run. unfold gets.
  cbn [completion after observed]. rewrite Hs, for_of_testRing_app.
  cbv zeta. rewrite Hb. cbn [completion observed for_of].
  rewrite bind_run, testRing_body_run, Hread. cbn [completion observed].
  by rewrite app_nil_r.
Qed.

(** *** Samples of the populator, re-read *)

Lemma step_store ev σ σ' :
  step env ev σ = Some σ' → own_write ev = true →
  (primary σ' = primary σ ∧ sampledValues σ' = sampledValues σ)
  ∨ ∃ obj d,
      ev = EvPopulate obj d
      ∧ primary σ' = store_set ["test"; obj; pushId d]
                       (test_record obj (now d)) (primary σ)
      ∧ sampledValues σ' = sampledValues (written_and_sampled obj d σ).
Proof.
  intros Hstep Hown.
  assert (∀ {A} (m : Js A), frames m → step env ev σ = Some (after (m σ)) →
            primary σ' = primary σ ∧ sampledValues σ' = sampledValues σ)
    as Hframe.
  { intros A m Hm Heq. rewrite Hstep in Heq. injection Heq as ->.
    destruct (Hm σ) as (_ & _ & _ & ? & ? & _). done. }
  destruct ev as [key|c|c|c| | |root|obj d| |p m]; try discriminate Hown.
  - left. by apply (Hframe _ (connectTo env key) (frames_connectTo env key)).
  - left. cbn [step] in Hstep. unfold transport_event in Hstep.
    destruct (clients σ !! c); [|done]. case_decide; [|done].
    by injection Hstep as <-.
  - left. cbn [step] in Hstep. unfold transport_event in Hstep.
    destruct (clients σ !! c); [|done]. case_decide; [|done].
    by injection Hstep as <-.
  - left. cbn [step] in Hstep. unfold transport_event in Hstep.
    destruct (clients σ !! c); [|done]. case_decide; [|done].
    by injection Hstep as <-.
  - left. by apply (Hframe _ (buildRing env) (frames_buildRing env)).
  - left. cbn [step] in Hstep. by injection Hstep as <-.
  - left. by apply (Hframe _ (replicaFor env root) (frames_replicaFor env root)).
  - right. exists obj, d. cbn [step] in Hstep.
    destruct (bool_decide (obj ∈ test_objs)); [|done].
    apply (inj Some) in Hstep as <-.
    rewrite populateRing_body_run. cbv zeta. cbn [after].
    destruct (frames_replicaFor env (path_string ["test"; obj])
                (written_and_sampled obj d σ)) as (_ & _ & _ & -> & -> & _).
    destruct (written_and_sampled_registry obj d σ) as (_ & _ & _ & _ & ->).
    done.
  - left. by apply (Hframe _ testRing frames_testRing).
Qed.

Lemma store_set_is_Some (p q : Path) (m : Msg) (s : gmap Path Msg) :
  is_Some (store_set p m s !! q) → q = p ∨ is_Some (s !! q).
Proof.
  unfold store_set. intros [x Hx].
  destruct (decide (p = q)) as [->|Hne]; [by left|right].
  rewrite lookup_insert_ne in Hx by done.
  apply map_lookup_filter_Some in Hx as [Hx _]. eauto.
Qed.

Lemma sampled_elem_of obj d σ sample :
  sample ∈ sampledValues (written_and_sampled obj d σ) →
  sample ∈ sampledValues σ
  ∨ sample = {| path := ["test"; obj]; inner := test_record obj (now d) |}.
Proof.
  unfold written_and_sampled.
  destruct (double_lt (random d) SAMPLE_RATE); simpl; [|by left].
  intros Hin. apply subseteq_drop in Hin.
  apply elem_of_app in Hin as [Hin|Hin]; [by left|right].
  by apply list_elem_of_singleton in Hin.
Qed.

Lemma step_samples_written ev σ σ' :
  samples_written σ → own_write ev = true → step env ev σ = Some σ' →
  samples_written σ'.
Proof.
  intros [Hkeys Hsamples] Hown Hstep.
  destruct (step_store ev σ σ' Hstep Hown)
    as [[Hp Hs]|(obj & d & _ & Hp & Hs)].
  - split; intros ?; rewrite ?Hp, ?Hs; auto.
  - split.
    + intros q Hq. rewrite Hp in Hq.
      apply store_set_is_Some in Hq as [->|Hq]; [done|by apply Hkeys].
    + intros sample Hin. rewrite Hs in Hin.
      apply sampled_elem_of in Hin as [Hin| ->].
      * destruct (Hsamples _ Hin) as (o & t & id & Heq & Hid).
        exists o, t, id. split; [done|]. rewrite Hp.
        destruct (decide (["test"; obj; pushId d] = ["test"; o; id]))
          as [<-|Hne].
        { rewrite lookup_store_set_eq. eauto. }
        rewrite lookup_store_set_other; [done|].
        intros Hpre. apply Hne. by apply prefix_length_eq.
      * exists obj, (now d), (pushId d). split; [done|].
        rewrite Hp, lookup_store_set_eq. eauto.
Qed.

Lemma run_samples_written evs σ σ' :
  samples_written σ → Forall (λ ev, own_write ev = true) evs →
  run env evs σ = Some σ' → samples_written σ'.
Proof.
  revert σ. induction evs as [|ev evs IH]; intros σ Hinv Hown Hrun;
    cbn [run] in Hrun.
  - by injection Hrun as <-.
  - destruct (step env ev σ) as [σ1|] eqn:Hs; [|done].
    apply Forall_cons in Hown as [Hev Hown].
    eapply IH; [|done|done]. by eapply step_samples_written.
Qed.

Lemma has_entry_from_true (p q : Path) (s : gmap Path Msg) :
  is_Some (s !! q) → p `prefix_of` q → has_entry_from p s = true.
Proof.
  intros Hq Hpre. unfold has_entry_from. apply existsb_exists.
  exists q. split; [|by apply bool_decide_eq_true].
  apply list_elem_of_In, elem_of_elements, elem_of_dom. done.
Qed.

Lemma testRing_body_of_written sample σ :
  samples_written σ → sample ∈ sampledValues σ →
  ∃ vmsg, (vmsg = JUndefined ∨ vmsg = JOther)
          ∧ testRing_body sample σ
            = {| completion := Normal tt; after := σ;
                 observed := [mismatch_report sample vmsg] |}.
Proof.
  intros [Hkeys Hsamples] Hin.
  destruct (Hsamples _ Hin) as (obj & t & id & -> & Hid).
  rewrite testRing_body_run. unfold read_msg. cbn [path inner].
  match goal with
  | |- context [match ?x with Some _ => _ | None => _ end] =>
      destruct x as [r|] eqn:Hr
  end.
  { assert (length ["test"; obj] = 3) as Hlen by (apply Hkeys; eauto).
    discriminate Hlen. }
  match goal with
  | |- context [if ?b then Normal FObject else _] => destruct b
  end.
  - exists JOther. split; [by right|]. reflexivity.
  - rewrite (has_entry_from_true ["test"; obj] ["test"; obj; id]); [|done|].
    + exists JUndefined. split; [by left|]. reflexivity.
    + by exists [id].
Qed.

(** X12: as long as no other party writes to the primary store, every tick
    of the sampler reports a mismatch for every sample in the buffer, one
    line per sample and in buffer order.  The record of a sample lies under
    a pushed child of the sample's path, so what the sampler reads at the
    path is never the [msg] that was written ([undefined], or an object if
    the pushed key happens to be "msg"). *)
Theorem testRing_reports_every_sample evs σ :
  Forall (λ ev, own_write ev = true) evs →
  run env evs initial = Some σ →
  completion (testRing σ) = Normal tt
  ∧ Forall2 (λ sample line,
               line = mismatch_report sample JUndefined
               ∨ line = mismatch_report sample JOther)
            (sampledValues σ) (observed (testRing σ)).
Proof.
  intros Hown Hrun.
  assert (samples_written σ) as Hinv.
  { apply (run_samples_written evs initial σ); [|done|done].
    split; [intros q [x Hx]; simpl in Hx; by rewrite lookup_empty in Hx|].
    intros sample Hin. by apply not_elem_of_nil in Hin. }
  unfold testRing. rewrite bind_run. unfold gets.
  cbn [completion after observed].
  assert (∀ samples, samples ⊆ sampledValues σ →
            completion (for_of samples testRing_body σ) = Normal tt
            ∧ Forall2 (λ sample line,
                         line = mismatch_report sample JUndefined
                         ∨ line = mismatch_report sample JOther)
                      samples (observed (for_of samples testRing_body σ)))
    as Hall.
  { induction samples as [|sample samples IH]; intros Hsub.
    - split; [done|]. constructor.
    - destruct (testRing_body_of_written sample σ Hinv) as (v & Hv & Hrun1).
      { apply Hsub. by left. }
      destruct IH as [IHc IHo]; [intros x Hx; apply Hsub; by right|].
      cbn [for_of]. rewrite bind_run, Hrun1. cbn [completion after observed].
      split; [done|]. constructor; [|done].
      destruct Hv as [-> | ->]; auto. }
  by apply Hall.
Qed.

End SamplerMore.

(** ** What the script connects to *)

Section SelfOnly.
Import Coordinator.
Context (env : Env).

Lemma with_clients_app l1 l2 σ :
  with_clients (λ cs, cs ++ l2) (with_clients (λ cs, cs ++ l1) σ)
  = with_clients (λ cs, cs ++ (l1 ++ l2)) σ.
Proof. unfold with_clients. simpl. by rewrite app_assoc. Qed.

Lemma bind_normal {A B} (m : Js A) (f : A → Js B) σ a :
  completion (m σ) = Normal a →
  completion ((m ≫= f) σ) = completion (f a (after (m σ)))
  ∧ after ((m ≫= f) σ) = after (f a (after (m σ))).
Proof. intros Hm. rewrite bind_run, Hm. done. Qed.

Lemma connectTo_self_after σ :
  after (connectTo env (serverName env) σ)
  = with_clients
      (λ cs, cs ++ replicate (if self_blocked env σ then 0 else 1)
                             (pending_self env)) σ.
Proof.
  unfold self_blocked.
  destruct (connections σ !! serverName env) as [c|] eqn:Hk.
  - rewrite (connectTo_registered _ _ _ _ Hk).
    rewrite bool_decide_eq_true_2 by eauto. simpl.
    destruct σ. unfold with_clients. simpl. by rewrite app_nil_r.
  - rewrite bool_decide_eq_false_2 by (by intros [? ?]). cbn [orb].
    destruct (client_ctor_throws env _) eqn:Hc.
    + rewrite connectTo_throws by done. simpl.
      destruct σ. unfold with_clients. simpl. by rewrite app_nil_r.
    + by rewrite connectTo_fresh.
Qed.

Lemma buildRing_loop_run keys σ :
  let body := λ key : string,
    if String.eqb key (serverName env) then mret tt
    else detached (connectTo env (serverName env)) in
  completion (for_of keys body σ) = Normal tt
  ∧ after (for_of keys body σ)
    = with_clients
        (λ cs, cs ++ replicate
                 (if self_blocked env σ then 0
                  else length (List.filter
                                 (λ key, negb (String.eqb key (serverName env)))
                                 keys))
                 (pending_self env)) σ.
Proof.
  cbv zeta. revert σ. induction keys as [|key keys IH]; intros σ.
  - split; [done|]. simpl. destruct (self_blocked env σ);
      destruct σ; unfold with_clients; simpl; by rewrite app_nil_r.
  - cbn [for_of List.filter].
    destruct (String.eqb key (serverName env)); cbn [negb].
    + rewrite ret_bind. apply IH.
    + destruct (bind_normal (detached (connectTo env (serverName env)))
                  (λ _, for_of keys
                     (λ key : string,
                        if String.eqb key (serverName env) then mret tt
                        else detached (connectTo env (serverName env))))
                  σ tt eq_refl) as [-> ->].
      change (after (detached (connectTo env (serverName env)) σ))
        with (after (connectTo env (serverName env) σ)).
      rewrite connectTo_self_after.
      match goal with |- context [for_of keys ?b ?s] =>
        destruct (IH s) as [-> ->] end.
      split; [done|].
      assert (∀ l, self_blocked env (with_clients l σ) = self_blocked env σ)
        as -> by done.
      rewrite with_clients_app, <- replicate_add. cbn [length].
      by destruct (self_blocked env σ).
Qed.


Lemma step_clients_all_for ev σ σ' :
  (∀ members root owner,
     getNode env members root = Some owner → owner ∈ members) →
  script_event ev = true →
  ring_members_live σ → clients_all_for (serverName env) σ →
  step env ev σ = Some σ' → clients_all_for (serverName env) σ'.
Proof.
  unfold clients_all_for. intros Hmem Hev Hlive Hall Hstep.
  assert (∀ c o t, clients σ !! c = Some o →
            Forall (λ o, ckey o = serverName env)
                   (clients (set_transport c t σ))) as Hset.
  { intros c o t Ho. rewrite (clients_set_transport _ _ _ _ Ho).
    apply Forall_insert; [done|]. simpl.
    by apply (Forall_lookup_1 _ _ _ _ Hall Ho). }
  destruct ev as [key|c|c|c| | |root|obj d| |p m]; try discriminate Hev;
    cbn [step] in Hstep.
  - unfold transport_event in Hstep.
    destruct (clients σ !! c) as [o|] eqn:Ho; [|done]. case_decide; [|done].
    apply (inj Some) in Hstep as <-. by apply (Hset c o).
  - unfold transport_event in Hstep.
    destruct (clients σ !! c) as [o|] eqn:Ho; [|done]. case_decide; [|done].
    apply (inj Some) in Hstep as <-. by apply (Hset c o).
  - unfold transport_event in Hstep.
    destruct (clients σ !! c) as [o|] eqn:Ho; [|done]. case_decide; [|done].
    apply (inj Some) in Hstep as <-. by apply (Hset c o).
  - apply (inj Some) in Hstep as <-.
    destruct (buildRing_loop_run (Object_keys (server env)) σ) as [_ Hafter].
    unfold buildRing. rewrite Hafter. simpl.
    apply Forall_app. split; [done|]. by apply Forall_replicate.
  - by apply (inj Some) in Hstep as <-.
  - apply (inj Some) in Hstep as <-.
    rewrite replicaFor_in_registry; [done|done|]. intros owner. apply Hmem.
  - destruct (bool_decide (obj ∈ test_objs)); [|done].
    apply (inj Some) in Hstep as <-.
    destruct (written_and_sampled_registry obj d σ)
      as (Hr & Hc & _ & Hcl & _).
    rewrite populateRing_body_run. cbv zeta. cbn [after].
    rewrite replicaFor_in_registry.
    + cbn [after]. by rewrite Hcl.
    + by apply (members_live_same_registry σ).
    + intros owner. apply Hmem.
  - apply (inj Some) in Hstep as <-. by rewrite testRing_after.
  - by apply (inj Some) in Hstep as <-.
Qed.

Lemma run_clients_all_for evs σ σ' :
  (∀ members root owner,
     getNode env members root = Some owner → owner ∈ members) →
  Forall (λ ev, script_event ev = true) evs →
  ring_members_live σ → clients_all_for (serverName env) σ →
  run env evs σ = Some σ' → clients_all_for (serverName env) σ'.
Proof.
  intros Hmem. revert σ.
  induction evs as [|ev evs IH]; intros σ Hevs Hlive Hall Hrun;
    cbn [run] in Hrun.
  - by injection Hrun as <-.
  - destruct (step env ev σ) as [σ1|] eqn:Hs; [|done].
    apply Forall_cons in Hevs as [Hev Hevs].
    apply (IH σ1); [done| | |done].
    + by eapply step_members_live.
    + by eapply step_clients_all_for.
Qed.

(** X14: left to itself (its timers and the transport of its own
    clients), and with a ring that answers with one of its members, the
    script never makes a connection to any node but the local one: every
    client it constructs is for [serverName], and no other identifier ever
    enters the ring, the connections map or the removed set. *)
Theorem script_connects_only_to_itself evs σ :
  (∀ members root owner,
     getNode env members root = Some owner → owner ∈ members) →
  Forall (λ ev, script_event ev = true) evs →
  run env evs initial = Some σ →
  Forall (λ o, ckey o = serverName env) (clients σ)
  ∧ ring σ ⊆ {[serverName env]}
  ∧ dom (connections σ) ⊆ {[serverName env]}
  ∧ removed σ ⊆ {[serverName env]}.
Proof.
  intros Hmem Hevs Hrun.
  assert (reachable env σ) as Hr by (by exists evs).
  assert (clients_all_for (serverName env) σ) as Hall.
  { apply (run_clients_all_for evs initial σ);
      [done|done|apply members_live_initial|constructor|done]. }
  assert (ring σ ⊆ {[serverName env]}) as Hring.
  { intros key Hk.
    destruct (reachable_members_live env σ Hr key Hk)
      as (c & o & _ & Ho & <- & _).
    apply elem_of_singleton. by apply (Forall_lookup_1 _ _ _ _ Hall Ho). }
  split_and!; try done.
  - by rewrite <- (reachable_ring_is_registry env σ Hr).
  - intros key Hk.
    destruct (reachable_removed_were_dropped env σ Hr key Hk)
      as (c & o & Ho & <- & _).
    apply elem_of_singleton. by apply (Forall_lookup_1 _ _ _ _ Hall Ho).
Qed.

End SelfOnly.

(** ** The earlier coordinator (src/unnamed/part_000) *)

Section LegacyStartup.
Import Startup.

(** X15: the start-up checks of the earlier script exit, with code 1,
    exactly when [--name] is unset, or names a node that is not in
    [config.server], or DB_ADMIN_PASSWORD holds the string "undefined";
    otherwise the script proceeds with the node's own entry as
    [serverConfig]. *)
Theorem legacy_startup_exits_iff l :
  (exits_nonzero (Legacy.startup l)
   ↔ env_DB_ADMIN_PASSWORD l = Some "undefined"
     ∨ argv_name l = None
     ∨ ∃ name, argv_name l = Some name
               ∧ server_lookup name (config_server l) = None)
  ∧ (∀ code text, Legacy.startup l = Exit code text → code = 1%Z)
  ∧ (∀ name pw sc, Legacy.startup l = Proceed name pw sc →
       ∃ e, server_lookup name (config_server l) = Some e
            ∧ sc = spread (Some e)).
Proof.
  unfold Legacy.startup.
  destruct (is_string_undefined (env_DB_ADMIN_PASSWORD l)) eqn:Hpw.
  - apply startup_password_check in Hpw. split_and!.
    + split; [auto|]. intros _. simpl. lia.
    + intros code text [= <- _]. done.
    + intros name pw sc [=].
  - assert (env_DB_ADMIN_PASSWORD l ≠ Some "undefined") as Hne.
    { intros H. apply startup_password_check in H. congruence. }
    destruct (argv_name l) as [name|]; simpl.
    + destruct (server_lookup name (config_server l)) as [e|] eqn:He.
      * split_and!.
        -- split; [done|]. intros [?|[?|(n & [= <-] & ?)]]; congruence.
        -- intros code text [=].
        -- intros name' pw sc [= <- <- <-]. eauto.
      * split_and!.
        -- split; [|simpl; lia]. intros _. right. right. eauto.
        -- intros code text [= <- _]. done.
        -- intros name' pw sc [=].
    + split_and!.
      * split; [auto|]. intros _. lia.
      * intros code text [= <- _]. done.
      * intros name pw sc [=].
Qed.

End LegacyStartup.

Section LegacyFacts.
Import Legacy.
Context (env : Env).

(** *** buildRing *)







(** *** replicaFor *)

Lemma legacy_replicaFor_hit root (σ : State env) e :
  clientCache σ !! root = Some e →
  replicaFor env root σ
  = {| completion := Coordinator.Normal (Some (client e)); after := σ;
       printed := [] |}.
Proof. intros He. unfold replicaFor. by rewrite He. Qed.

Lemma legacy_replicaFor_cache root root' (σ : State env) e :
  clientCache σ !! root = Some e →
  clientCache (after (replicaFor env root' σ)) !! root = Some e.
Proof.
  intros He. unfold replicaFor.
  destruct (clientCache σ !! root') as [e'|] eqn:He'; simpl; [done|].
  destruct (getNode env (ring σ) root') as [up|]; simpl; [|done].
  rewrite lookup_insert_ne; [done|]. intros ->. congruence.
Qed.

Lemma legacy_buildRing_loop_cache keys (σ : State env) :
  clientCache (after (buildRing_loop env keys σ)) = clientCache σ.
Proof.
  revert σ. induction keys as [|key keys IH]; intros σ; [done|].
  cbn [buildRing_loop].
  destruct (String.eqb key (serverName env)); [apply IH|].
  destruct (bool_decide (is_Some (connections σ !! key))); [apply IH|].
  destruct (client_ctor_throws env _); [done|]. by rewrite IH.
Qed.

Lemma legacy_step_cache ev (σ σ' : State env) root e :
  step env ev σ = Some σ' →
  clientCache σ !! root = Some e → clientCache σ' !! root = Some e.
Proof.
  intros Hstep He.
  destruct ev as [c|c|c| |ready_ok|root'|obj now id ok]; cbn [step] in Hstep.
  - unfold transport_event in Hstep. destruct (clients σ !! c); [|done].
    case_decide; [|done]. destruct (listens _); by injection Hstep as <-.
  - unfold transport_event in Hstep. destruct (clients σ !! c); [|done].
    case_decide; [|done]. destruct (listens _); by injection Hstep as <-.
  - unfold transport_event in Hstep. destruct (clients σ !! c); [|done].
    case_decide; [|done]. destruct (listens _); by injection Hstep as <-.
  - apply (inj Some) in Hstep as <-. unfold buildRing.
    by rewrite legacy_buildRing_loop_cache.
  - by apply (inj Some) in Hstep as <-.
  - apply (inj Some) in Hstep as <-. by apply legacy_replicaFor_cache.
  - destruct (bool_decide (obj ∈ Coordinator.test_objs)); [|done].
    apply (inj Some) in Hstep as <-. unfold testRing_body. cbv zeta.
    match goal with |- context [replicaFor env ?r ?s] =>
      pose proof (legacy_replicaFor_cache root r s e He) as Hc;
      destruct (replicaFor env r s) as [[[up|]|err] σ2 out]
    end; simpl in *; [destruct ok|..]; done.
Qed.

(** X18: the earlier router resolves a path once.  Once [clientCache]
    holds an entry for a path, no later event removes or replaces it, and
    every later call for that path returns the client of that entry without
    asking the ring, whatever has happened to the client's connection and
    to the ring membership since. *)
Theorem legacy_replicaFor_cache_is_sticky evs (σ σ' : State env) root e :
  clientCache σ !! root = Some e →
  run env evs σ = Some σ' →
  replicaFor env root σ'
  = {| completion := Coordinator.Normal (Some (client e)); after := σ';
       printed := [] |}.
Proof.
  intros He Hrun. apply legacy_replicaFor_hit.
  revert σ He Hrun. induction evs as [|ev evs IH]; intros σ He Hrun;
    cbn [run] in Hrun.
  - by injection Hrun as <-.
  - destruct (step env ev σ) as [σ1|] eqn:Hs; [|done].
    apply (IH σ1); [|done]. by eapply legacy_step_cache.
Qed.

(** X19: a call of the earlier router for a path without a cache entry
    asks the ring.  With an owner it returns the owner's client and caches
    the entry, so that the next call answers from the cache; without an
    owner it returns [undefined] and caches nothing. *)
Theorem legacy_replicaFor_miss root (σ : State env) :
  clientCache σ !! root = None →
  match getNode env (ring σ) root with
  | Some upstream =>
      completion (replicaFor env root σ)
      = Coordinator.Normal (Some (client upstream))
      ∧ after (replicaFor env root σ)
        = with_clientCache env (<[root := upstream]>) σ
      ∧ replicaFor env root (after (replicaFor env root σ))
        = {| completion := Coordinator.Normal (Some (client upstream));
             after := after (replicaFor env root σ); printed := [] |}
  | None =>
      completion (replicaFor env root σ) = Coordinator.Normal None
      ∧ after (replicaFor env root σ) = σ
  end.
Proof.
  intros Hmiss.
  assert (replicaFor env root σ
          = match getNode env (ring σ) root with
            | None =>
                {| completion := Coordinator.Normal None; after := σ;
                   printed := printed (replicaFor env root σ) |}
            | Some upstream =>
                {| completion := Coordinator.Normal (Some (client upstream));
                   after := with_clientCache env (<[root := upstream]>) σ;
                   printed := printed (replicaFor env root σ) |}
            end) as Hrun.
  { unfold replicaFor. rewrite Hmiss. simpl.
    by destruct (getNode env (ring σ) root). }
  destruct (getNode env (ring σ) root) as [up|] eqn:Hg; rewrite Hrun;
    cbn [completion after]; [|done].
  split_and!; try done.
  apply legacy_replicaFor_hit. simpl. apply lookup_insert_eq.
Qed.

(** *** testRing *)

(** X20: every iteration of the loop of the earlier [testRing] counts
    exactly one outcome: it adds one to [success] when the router returned a
    client and the write to it succeeded, and one to [failure] otherwise;
    the record is in the primary store either way. *)
Theorem legacy_testRing_body_counts obj now id replica_ok (σ : State env) :
  ∃ success failure,
    completion (testRing_body env obj now id replica_ok σ)
    = Coordinator.Normal (success, failure)
    ∧ success + failure = 1
    ∧ (success = 1 ↔
       replica_ok = true
       ∧ (is_Some (clientCache σ !! Coordinator.path_string ["test"; obj])
          ∨ is_Some (getNode env (ring σ)
                             (Coordinator.path_string ["test"; obj]))))
    ∧ primary (after (testRing_body env obj now id replica_ok σ))
        !! ["test"; obj; id]
      = Some {| Coordinator.msg := "testing for ref " +:+ obj;
                Coordinator.ts := now |}.
Proof.
  unfold testRing_body. cbv zeta.
  generalize (Coordinator.path_string ["test"; obj]) as root. intros root.
  unfold replicaFor. cbn [clientCache ring with_primary].
  destruct (clientCache σ !! root) as [e|] eqn:He; cbn [fmap option_fmap option_map].
  - cbn [completion after printed]. destruct replica_ok.
    + exists 1, 0. split_and!; try done.
      * split; [eauto|done].
      * apply lookup_store_set_eq.
    + exists 0, 1. split_and!; try done.
      * split; [done|]. by intros [? _].
      * apply lookup_store_set_eq.
  - destruct (getNode env (ring σ) root) as [up|] eqn:Hg;
      cbn [completion after printed].
    + destruct replica_ok.
      * exists 1, 0. split_and!; try done.
        -- split; [eauto|done].
        -- apply lookup_store_set_eq.
      * exists 0, 1. split_and!; try done.
        -- split; [done|]. by intros [? _].
        -- apply lookup_store_set_eq.
    + exists 0, 1. split_and!; try done.
      * split; [done|]. intros [_ [[? ?]|[? ?]]]; done.
      * apply lookup_store_set_eq.
Qed.

(** *** What the earlier script connects to *)

Lemma legacy_buildRing_loop_clients keys (σ : State env) :
  ∃ new, clients (after (buildRing_loop env keys σ)) = clients σ ++ new
         ∧ Forall (λ o, ckey o ≠ serverName env ∧ ckey o ∈ keys) new.
Proof.
  revert σ. induction keys as [|key keys IH]; intros σ.
  - exists []. by rewrite app_nil_r.
  - assert (∀ new, Forall (λ o, ckey o ≠ serverName env ∧ ckey o ∈ keys) new →
              Forall (λ o, ckey o ≠ serverName env ∧ ckey o ∈ key :: keys) new)
      as Hweak.
    { intros new Hnew. eapply Forall_impl; [exact Hnew|].
      intros o [? ?]. split; [done|by right]. }
    cbn [buildRing_loop].
    destruct (String.eqb key (serverName env)) eqn:Hname.
    { destruct (IH σ) as (new & ? & ?). exists new. auto. }
    destruct (bool_decide (is_Some (connections σ !! key))).
    { destruct (IH σ) as (new & ? & ?). exists new. auto. }
    destruct (client_ctor_throws env _).
    { exists []. by rewrite app_nil_r. }
    match goal with |- context [buildRing_loop env keys ?s] =>
      destruct (IH s) as (new & Hnew & Hall) end.
    exists (pending key :: new). rewrite Hnew. cbn [clients with_clients].
    split; [by rewrite <- app_assoc|].
    constructor; [|auto]. simpl. split; [by apply String.eqb_neq|by left].
Qed.

Lemma legacy_step_clients ev (σ σ' : State env) :
  Forall (λ o, ckey o ≠ serverName env ∧ ckey o ∈ Object_keys (server env))
         (clients σ) →
  step env ev σ = Some σ' →
  Forall (λ o, ckey o ≠ serverName env ∧ ckey o ∈ Object_keys (server env))
         (clients σ').
Proof.
  intros Hall Hstep.
  assert (∀ c o t, clients σ !! c = Some o →
            Forall (λ o, ckey o ≠ serverName env
                         ∧ ckey o ∈ Object_keys (server env))
                   (clients (set_transport env c t σ))) as Hset.
  { intros c o t Ho. unfold set_transport. simpl. rewrite Ho.
    apply Forall_insert; [done|]. simpl.
    by apply (Forall_lookup_1 _ _ _ _ Hall Ho). }
  destruct ev as [c|c|c| |ready_ok|root'|obj now id ok]; cbn [step] in Hstep.
  - unfold transport_event in Hstep.
    destruct (clients σ !! c) as [o|] eqn:Ho; [|done]. case_decide; [|done].
    destruct (listens o); apply (inj Some) in Hstep as <-; by apply (Hset c o).
  - unfold transport_event in Hstep.
    destruct (clients σ !! c) as [o|] eqn:Ho; [|done]. case_decide; [|done].
    destruct (listens o); apply (inj Some) in Hstep as <-; by apply (Hset c o).
  - unfold transport_event in Hstep.
    destruct (clients σ !! c) as [o|] eqn:Ho; [|done]. case_decide; [|done].
    destruct (listens o); apply (inj Some) in Hstep as <-; by apply (Hset c o).
  - apply (inj Some) in Hstep as <-. unfold buildRing.
    destruct (legacy_buildRing_loop_clients (Object_keys (server env)) σ)
      as (new & -> & Hnew).
    by apply Forall_app.
  - by apply (inj Some) in Hstep as <-.
  - apply (inj Some) in Hstep as <-. unfold replicaFor.
    destruct (clientCache σ !! root'); simpl; [done|].
    by destruct (getNode env (ring σ) root').
  - destruct (bool_decide (obj ∈ Coordinator.test_objs)); [|done].
    apply (inj Some) in Hstep as <-. unfold testRing_body, replicaFor.
    cbv zeta. cbn [clientCache ring with_primary].
    destruct (clientCache σ !! _); simpl; [by destruct ok|].
    destruct (getNode env (ring σ) _); simpl; [by destruct ok|done].
Qed.

Lemma legacy_buildRing_loop_registry keys (σ : State env) :
  connections (after (buildRing_loop env keys σ)) = connections σ
  ∧ removed (after (buildRing_loop env keys σ)) = removed σ.
Proof.
  revert σ. induction keys as [|key keys IH]; intros σ; [done|].
  cbn [buildRing_loop].
  destruct (String.eqb key (serverName env)); [apply IH|].
  destruct (bool_decide (is_Some (connections σ !! key))); [apply IH|].
  destruct (client_ctor_throws env _); [done|].
  match goal with |- context [buildRing_loop env keys ?s] =>
    destruct (IH s) as [-> ->] end.
  done.
Qed.

Lemma legacy_step_registry ev (σ σ' : State env) :
  Forall (λ o, ckey o ≠ serverName env ∧ ckey o ∈ Object_keys (server env))
         (clients σ) →
  (serverName env ∉ dom (connections σ)) ∧ (serverName env ∉ removed σ) →
  step env ev σ = Some σ' →
  (serverName env ∉ dom (connections σ')) ∧ (serverName env ∉ removed σ').
Proof.
  intros Hall [Hconn Hrem] Hstep.
  destruct ev as [c|c|c| |ready_ok|root'|obj now id ok]; cbn [step] in Hstep.
  - unfold transport_event in Hstep.
    destruct (clients σ !! c) as [o|] eqn:Ho; [|done]. case_decide; [|done].
    destruct (Forall_lookup_1 _ _ _ _ Hall Ho) as [Hne _].
    destruct (listens o); apply (inj Some) in Hstep as <-; simpl; [|done].
    split; [|done]. rewrite dom_insert_L.
    apply not_elem_of_union. split; [|done].
    apply not_elem_of_singleton. congruence.
  - unfold transport_event in Hstep.
    destruct (clients σ !! c) as [o|] eqn:Ho; [|done]. case_decide; [|done].
    destruct (listens o); by apply (inj Some) in Hstep as <-.
  - unfold transport_event in Hstep.
    destruct (clients σ !! c) as [o|] eqn:Ho; [|done]. case_decide; [|done].
    destruct (Forall_lookup_1 _ _ _ _ Hall Ho) as [Hne _].
    destruct (listens o); apply (inj Some) in Hstep as <-; simpl; [|done].
    split.
    + rewrite dom_delete_L. intros Hin.
      apply elem_of_difference in Hin as [Hin _]. done.
    + apply not_elem_of_union. split; [|done].
      apply not_elem_of_singleton. congruence.
  - apply (inj Some) in Hstep as <-. unfold buildRing.
    by destruct (legacy_buildRing_loop_registry (Object_keys (server env)) σ)
      as [-> ->].
  - by apply (inj Some) in Hstep as <-.
  - apply (inj Some) in Hstep as <-. unfold replicaFor.
    destruct (clientCache σ !! root'); simpl; [done|].
    by destruct (getNode env (ring σ) root').
  - destruct (bool_decide (obj ∈ Coordinator.test_objs)); [|done].
    apply (inj Some) in Hstep as <-. unfold testRing_body, replicaFor.
    cbv zeta. cbn [clientCache ring with_primary].
    destruct (clientCache σ !! _); simpl; [by destruct ok|].
    destruct (getNode env (ring σ) _); simpl; [by destruct ok|done].
Qed.

(** X21: in the earlier script the peer registry never holds the local
    node: in every execution each client that [buildRing] has constructed
    is for a configured node other than [serverName], and [serverName] is
    neither a key of the connections map nor in the removed set.  (The
    script's connection to the local node is the top-level [client] of
    line 68, which is outside the registry.) *)
Theorem legacy_registry_excludes_local_node evs (σ : State env) :
  run env evs (initial env) = Some σ →
  Forall (λ o, ckey o ≠ serverName env ∧ ckey o ∈ Object_keys (server env))
         (clients σ)
  ∧ (serverName env ∉ dom (connections σ))
  ∧ (serverName env ∉ removed σ).
Proof.
  assert (∀ σ0 : State env,
            Forall (λ o, ckey o ≠ serverName env
                         ∧ ckey o ∈ Object_keys (server env)) (clients σ0)
            ∧ (serverName env ∉ dom (connections σ0))
            ∧ (serverName env ∉ removed σ0) →
            run env evs σ0 = Some σ →
            Forall (λ o, ckey o ≠ serverName env
                         ∧ ckey o ∈ Object_keys (server env)) (clients σ)
            ∧ (serverName env ∉ dom (connections σ))
            ∧ (serverName env ∉ removed σ))
    as Hrun.
  { induction evs as [|ev evs IH]; intros σ0 (Hall & Hreg) Hrun;
      cbn [run] in Hrun.
    - by injection Hrun as <-.
    - destruct (step env ev σ0) as [σ1|] eqn:Hs; [|done].
      apply (IH σ1); [|done]. split.
      + by eapply legacy_step_clients.
      + by eapply legacy_step_registry. }
  apply Hrun. split; [constructor|]. simpl. rewrite dom_empty_L.
  split; apply not_elem_of_empty.
Qed.

End LegacyFacts.

(** ** The further properties at concrete inputs *)

Section FurtherWitnesses.
Import Coordinator.

Lemma env_abc_getNode_member members root owner :
  getNode env_abc members root = Some owner → owner ∈ members.
Proof.
  simpl. intros Hhead. apply elem_of_elements.
  destruct (elements members) as [|x xs]; [done|].
  injection Hhead as ->. by left.
Qed.

Lemma state_dropped_reachable : reachable env_abc state_dropped.
Proof. apply state_after_reachable. vm_compute. eauto. Qed.

Lemma ring_equals_registered_nodes_witness :
  reachable env_abc state_connected
  ∧ ring state_connected = dom (connections state_connected).
Proof.
  split; [apply state_connected_reachable|].
  apply (ring_equals_registered_nodes env_abc state_connected).
  apply state_connected_reachable.
Defined.

Lemma removed_never_shrinks_witness :
  run env_abc [EvCheckRemoved; EvBuildRing; EvCheckRemoved] state_dropped
  = Some (after (buildRing env_abc state_dropped))
  ∧ removed state_dropped
    ⊆ removed (after (buildRing env_abc state_dropped)).
Proof.
  split; [reflexivity|].
  apply (removed_never_shrinks env_abc
           [EvCheckRemoved; EvBuildRing; EvCheckRemoved] state_dropped).
  reflexivity.
Defined.

Lemma removed_only_by_disconnect_witness :
  reachable env_abc state_dropped
  ∧ "a" ∈ removed state_dropped
  ∧ ∃ c o, clients state_dropped !! c = Some o
           ∧ ckey o = "a" ∧ transport o = Dropped.
Proof.
  assert ("a" ∈ removed state_dropped) as Hin.
  { vm_compute. reflexivity. }
  split; [apply state_dropped_reachable|]. split; [exact Hin|].
  apply (removed_only_by_disconnect env_abc state_dropped
           state_dropped_reachable "a" Hin).
Defined.

Lemma replicaFor_reads_only_witness :
  reachable env_abc state_connected
  ∧ after (replicaFor env_abc "/test/g" state_connected) = state_connected
  ∧ completion (replicaFor env_abc "/test/g" state_connected)
    = Normal (Some 0).
Proof.
  split; [apply state_connected_reachable|].
  destruct (replicaFor_reads_only env_abc state_connected "/test/g")
    as [Hafter Hcompletion].
  - apply state_connected_reachable.
  - intros owner. apply env_abc_getNode_member.
  - split; [exact Hafter|]. rewrite Hcompletion. reflexivity.
Defined.

Lemma populateRing_body_without_owner_witness :
  getNode env_abc (ring initial) (path_string ["test"; "g"]) = None
  ∧ completion (populateRing_body env_abc "g" draw_g initial) = Normal 1.
Proof.
  split; [reflexivity|].
  rewrite (populateRing_body_without_owner env_abc "g" draw_g initial);
    reflexivity.
Defined.

Lemma populateRing_body_with_owner_witness :
  getNode env_abc (ring state_connected) (path_string ["test"; "g"]) = Some "a"
  ∧ connections state_connected !! "a" = Some 0
  ∧ observed (populateRing_body env_abc "g" draw_g state_connected)
    = [CallConnectTo "a";
       ReplicaSet 0 ["test"; "g"; "k0"] (test_record "g" 1000)].
Proof.
  split; [reflexivity|]. split; [reflexivity|].
  destruct (populateRing_body_with_owner env_abc "g" draw_g state_connected
              "a" 0) as [-> _]; reflexivity.
Defined.

Lemma testRing_body_compares_msg_witness :
  primary state_overwritten !! ["test"; "g"]
  = Some {| msg := "y"; ts := 2000 |}
  ∧ observed
      (testRing_body
         {| path := ["test"; "g"]; inner := test_record "g" 1000 |}
         state_overwritten)
    = [mismatch_report
         {| path := ["test"; "g"]; inner := test_record "g" 1000 |}
         (JString "y")].
Proof.
  assert (primary state_overwritten !! ["test"; "g"]
          = Some {| msg := "y"; ts := 2000 |}) as Hstored.
  { vm_compute. reflexivity. }
  split; [exact Hstored|].
  rewrite (testRing_body_compares_msg
             {| path := ["test"; "g"]; inner := test_record "g" 1000 |}
             state_overwritten _ Hstored).
  reflexivity.
Defined.

Lemma testRing_stops_at_failing_read_witness :
  sampledValues state_parent_overwritten
  = [] ++ {| path := ["test"; "g"]; inner := test_record "g" 1000 |} :: []
  ∧ completion (testRing state_parent_overwritten)
    = Throw "TypeError: Cannot read properties of null".
Proof.
  assert (sampledValues state_parent_overwritten
          = [] ++ {| path := ["test"; "g"]; inner := test_record "g" 1000 |}
               :: []) as Hsamples.
  { vm_compute. reflexivity. }
  split; [exact Hsamples|].
  apply (testRing_stops_at_failing_read state_parent_overwritten _ _ _ _
           Hsamples).
  - reflexivity.
  - vm_compute. reflexivity.
Defined.

Lemma testRing_reports_every_sample_witness :
  Forall (λ ev, own_write ev = true)
         [EvPopulate "g" draw_g; EvBuildRing; EvTestRing]
  ∧ completion
      (testRing
         (state_after env_abc [EvPopulate "g" draw_g; EvBuildRing; EvTestRing]))
    = Normal tt.
Proof.
  assert (Forall (λ ev, own_write ev = true)
                 [EvPopulate "g" draw_g; EvBuildRing; EvTestRing]) as Hown.
  { repeat constructor. }
  split; [exact Hown|].
  apply (testRing_reports_every_sample env_abc
           [EvPopulate "g" draw_g; EvBuildRing; EvTestRing]); [exact Hown|].
  vm_compute. reflexivity.
Defined.

Lemma script_connects_only_to_itself_witness :
  Forall (λ ev, script_event ev = true)
         [EvBuildRing; EvReady 0; EvReady 1; EvReplicaFor "/test/b";
          EvDisconnect 1]
  ∧ ring (state_after env_abc
            [EvBuildRing; EvReady 0; EvReady 1; EvReplicaFor "/test/b";
             EvDisconnect 1])
    ⊆ {["a"]}.
Proof.
  assert (Forall (λ ev, script_event ev = true)
                 [EvBuildRing; EvReady 0; EvReady 1; EvReplicaFor "/test/b";
                  EvDisconnect 1]) as Hscript.
  { repeat constructor. }
  split; [exact Hscript|].
  apply (script_connects_only_to_itself env_abc
           [EvBuildRing; EvReady 0; EvReady 1; EvReplicaFor "/test/b";
            EvDisconnect 1]).
  - apply env_abc_getNode_member.
  - exact Hscript.
  - vm_compute. reflexivity.
Defined.

End FurtherWitnesses.

Section LegacyWitnesses.
Import Legacy.



Lemma legacy_replicaFor_cache_is_sticky_witness :
  clientCache legacy_state_resolved !! "/test/a"
  = Some {| key := "b"; client := 0 |}
  ∧ run legacy_env_abc [EvDisconnect 0; EvBuildRing] legacy_state_resolved
    = Some (legacy_state_after legacy_env_abc
              [EvBuildRing; EvReady 0; EvReplicaFor "/test/a";
               EvDisconnect 0; EvBuildRing])
  ∧ completion
      (replicaFor legacy_env_abc "/test/a"
         (legacy_state_after legacy_env_abc
            [EvBuildRing; EvReady 0; EvReplicaFor "/test/a";
             EvDisconnect 0; EvBuildRing]))
    = Coordinator.Normal (Some 0).
Proof.
  assert (clientCache legacy_state_resolved !! "/test/a"
          = Some {| key := "b"; client := 0 |}) as Hcache.
  { vm_compute. reflexivity. }
  assert (run legacy_env_abc [EvDisconnect 0; EvBuildRing]
              legacy_state_resolved
          = Some (legacy_state_after legacy_env_abc
                    [EvBuildRing; EvReady 0; EvReplicaFor "/test/a";
                     EvDisconnect 0; EvBuildRing])) as Hrun.
  { vm_compute. reflexivity. }
  split; [exact Hcache|]. split; [exact Hrun|].
  rewrite (legacy_replicaFor_cache_is_sticky legacy_env_abc
             [EvDisconnect 0; EvBuildRing] legacy_state_resolved _ "/test/a" _
             Hcache Hrun).
  reflexivity.
Defined.

Lemma legacy_replicaFor_miss_witness :
  clientCache (initial legacy_env_abc) !! "/test/a" = None
  ∧ completion (replicaFor legacy_env_abc "/test/a" (initial legacy_env_abc))
    = Coordinator.Normal None.
Proof.
  split; [reflexivity|].
  pose proof (legacy_replicaFor_miss legacy_env_abc "/test/a"
                (initial legacy_env_abc) eq_refl) as Hmiss.
  apply Hmiss.
Defined.

Lemma legacy_registry_excludes_local_node_witness :
  run legacy_env_abc [EvBuildRing; EvReady 0; EvDisconnect 0; EvBuildRing]
      (initial legacy_env_abc)
  = Some (legacy_state_after legacy_env_abc
            [EvBuildRing; EvReady 0; EvDisconnect 0; EvBuildRing])
  ∧ Forall (λ o, ckey o ≠ "a")
           (clients (legacy_state_after legacy_env_abc
                       [EvBuildRing; EvReady 0; EvDisconnect 0; EvBuildRing]))
  ∧ ("a" ∉ removed (legacy_state_after legacy_env_abc
                      [EvBuildRing; EvReady 0; EvDisconnect 0; EvBuildRing])).
Proof.
  assert (run legacy_env_abc
              [EvBuildRing; EvReady 0; EvDisconnect 0; EvBuildRing]
              (initial legacy_env_abc)
          = Some (legacy_state_after legacy_env_abc
                    [EvBuildRing; EvReady 0; EvDisconnect 0; EvBuildRing]))
    as Hrun.
  { vm_compute. reflexivity. }
  split; [exact Hrun|].
  destruct (legacy_registry_excludes_local_node legacy_env_abc _ _ Hrun)
    as (Hall & _ & Hremoved).
  split; [|exact Hremoved].
  eapply Forall_impl; [exact Hall|].
  intros o [Hne _]. exact Hne.
Defined.

End LegacyWitnesses.
